(** * pygoogle: fuzzy function search over an indexed source tree

    A shallow embedding of [app/src/pygoogle.py] (and of the helpers it
    shares with [app/ppi/utils.py]): the signature normaliser, the
    function extractor, the folder indexer with its JSON cache, and the
    edit-distance ranking.

    Python [str] values are modelled as lists of characters whose code
    points are below 256; Python exceptions as the left injection of a sum;
    the file system, the logger and the mutable list objects of the module
    as an explicit world threaded through a state-and-exception monad. *)

From Stdlib Require Import String Ascii List Bool Arith ZArith Lia.
From Stdlib Require Import Permutation Sorted DecimalString.
Import ListNotations.

Set Implicit Arguments.

(** ** Strings *)

Definition str := list ascii.

(** String literals of the source, as character lists. *)
Notation "$ s" := (list_ascii_of_string s) (at level 1, format "$ s").

Definition str_eqb (a b : str) : bool :=
  if list_eq_dec ascii_dec a b then true else false.

(** [str.split(sep)] for a one-character separator: every occurrence of
    [sep] ends a field, so the result always has at least one field. *)
Fixpoint split (sep : ascii) (s : str) : list str :=
  match s with
  | [] => [[]]
  | c :: s' =>
      if Ascii.eqb c sep then [] :: split sep s'
      else match split sep s' with
           | [] => [[c]]
           | t :: ts => (c :: t) :: ts
           end
  end.

(** [sep.join(parts)]. *)
Fixpoint join (sep : str) (parts : list str) : str :=
  match parts with
  | [] => []
  | x :: rest =>
      match rest with
      | [] => x
      | _ :: _ => x ++ sep ++ join sep rest
      end
  end.

(** [s.replace(old, new)] for a one-character [old]. *)
Definition replace (old : ascii) (new : str) (s : str) : str :=
  flat_map (fun c => if Ascii.eqb c old then new else [c]) s.

(** The characters [str.strip()] removes, among code points below 256:
    tab, line feed, vertical tab, form feed, carriage return, the four
    separators 28..31, space, NEL (133) and no-break space (160). *)
Definition is_space (c : ascii) : bool :=
  let n := nat_of_ascii c in
  ((9 <=? n) && (n <=? 13)) || ((28 <=? n) && (n <=? 32))
  || (n =? 133) || (n =? 160).

Fixpoint lstrip (s : str) : str :=
  match s with
  | [] => []
  | c :: s' => if is_space c then lstrip s' else s
  end.

Fixpoint rstrip (s : str) : str :=
  match s with
  | [] => []
  | c :: s' =>
      match rstrip s' with
      | [] => if is_space c then [] else [c]
      | r => c :: r
      end
  end.

Fixpoint startswith (s prefix : str) : bool :=
  match prefix, s with
  | [], _ => true
  | _ :: _, [] => false
  | p :: prefix', c :: s' => Ascii.eqb c p && startswith s' prefix'
  end.

Definition endswith (s suffix : str) : bool :=
  startswith (rev s) (rev suffix).

(** ** Exceptions *)

Inductive exn : Type :=
| IndexError
| AttributeError
| SyntaxError
| OSError.

Definition result (A : Type) : Type := (exn + A)%type.
Definition Ok {A} (a : A) : result A := inr a.
Definition Raise {A} (e : exn) : result A := inl e.

(** ** Function records *)

Record FunctionType : Type := mkFunction {
  name : str;
  args : list str;
  filename : str;
  line : Z
}.

(** Decimal rendering of a line number, for the [file:line] prefix. *)
Definition str_of_Z (z : Z) : str :=
  list_ascii_of_string (NilZero.string_of_int (Z.to_int z)).

(** [get_signature]: the arguments are accumulated each followed by
    [", "], and the last two characters are cut off again. *)
Definition get_signature (function : FunctionType) (file_infos : bool) : str :=
  let args := fold_left (fun acc a => acc ++ a ++ $", ") function.(args) [] in
  let signature :=
    function.(name) ++ $"(" ++ firstn (length args - 2) args ++ $")" in
  if file_infos
  then function.(filename) ++ $":" ++ str_of_Z function.(line) ++ $" " ++ signature
  else signature.

(** ** normalize *)

Definition normalize (query : str) : result str :=
  let split_query := split "("%char query in
  match nth_error split_query 0 with
  | None => Raise IndexError
  | Some name =>
      let name :=
        join $"_" (filter (fun a => negb (str_eqb a [])) (split " "%char name)) in
      match nth_error split_query 1 with
      | None => Raise IndexError
      | Some args =>
          let args := replace ")"%char [] args in
          let args :=
            join $", " (map (fun a => rstrip (lstrip a)) (split ","%char args)) in
          Ok (name ++ $" ( " ++ args ++ $" )")
      end
  end.

(** ** Sequencing of computations that may raise *)

Definition bindR {A B} (r : result A) (k : A -> result B) : result B :=
  match r with
  | inl e => inl e
  | inr a => k a
  end.

Notation "'try' x <- r ; k" := (bindR r (fun x => k))
  (at level 10, x name, r at level 100, k at level 200).

(** ** Edit distance *)

(** Modelled from the spec: the module [levenshtein] that [pygoogle.py]
    imports [lev] from is not among the sources; the spec describes it as
    the unweighted Levenshtein distance, where a substitution, an insertion
    and a deletion each cost 1. *)
Fixpoint lev (a : str) : str -> nat :=
  match a with
  | [] => fun b => List.length b
  | x :: a' =>
      fix lev_row (b : str) : nat :=
        match b with
        | [] => S (List.length a')
        | y :: b' =>
            if Ascii.eqb x y then lev a' b'
            else S (Nat.min (lev a' b') (Nat.min (lev a' b) (lev_row b')))
        end
  end.

(** ** sorted *)

Section Sorted.
Variable A : Type.
Variable key : A -> nat.

(** The built-in [sorted(xs, key=key)] is guaranteed stable; it is
    modelled by the insertion sort that puts an element in front of the
    first element whose key is not smaller. *)
Fixpoint insert_by_key (x : A) (l : list A) : list A :=
  match l with
  | [] => [x]
  | y :: l' =>
      if key x <=? key y then x :: y :: l' else y :: insert_by_key x l'
  end.

Fixpoint sorted (l : list A) : list A :=
  match l with
  | [] => []
  | x :: l' => insert_by_key x (sorted l')
  end.
End Sorted.

(** ** sort *)

Definition RankedResult : Type := (nat * FunctionType)%type.

(** The loop of [sort]: one pair per function, appended in input order. *)
Fixpoint sort_loop (query : str) (functions : list FunctionType)
    (sorted_functions : list RankedResult) : result (list RankedResult) :=
  match functions with
  | [] => Ok sorted_functions
  | f :: rest =>
      try signature <- normalize (get_signature f false);
      sort_loop query rest (sorted_functions ++ [(lev query signature, f)])
  end.

Definition sort (query : str) (functions : list FunctionType)
    : result (list RankedResult) :=
  try sorted_functions <- sort_loop query functions [];
  Ok (sorted (fun x : RankedResult => fst x) sorted_functions).

(** ** Syntax trees *)

(** The nodes of a parsed module, as far as the indexer looks at them: a
    node is an [ast.FunctionDef], with its name, the names of its
    positional parameters ([node.args.args]) and its line, or any other
    node; both have child nodes. *)
#[warnings="-register-all"]
Inductive node : Type :=
| FunctionDef (node_name : str) (node_args : list str) (lineno : Z)
              (children : list node)
| OtherNode (children : list node).

Definition iter_child_nodes (n : node) : list node :=
  match n with
  | FunctionDef _ _ _ children => children
  | OtherNode children => children
  end.

Fixpoint node_size (n : node) : nat :=
  match n with
  | FunctionDef _ _ _ children => S (list_sum (map node_size children))
  | OtherNode children => S (list_sum (map node_size children))
  end.

Definition forest_size (todo : list node) : nat :=
  list_sum (map node_size todo).

(** [ast.walk]: a queue, initially the root; the node at the front is
    taken out, its children are put at the back, and the node is
    yielded.  The number of iterations is bounded by [fuel]. *)
Fixpoint walk_loop (fuel : nat) (todo : list node) : list node :=
  match fuel with
  | O => []
  | S fuel' =>
      match todo with
      | [] => []
      | n :: rest => n :: walk_loop fuel' (rest ++ iter_child_nodes n)
      end
  end.

Definition walk (n : node) : list node := walk_loop (node_size n) [n].

(** [d] is [n] or occurs below [n]. *)
Inductive descendant (d : node) : node -> Prop :=
| desc_self : descendant d d
| desc_child : forall c n,
    In c (iter_child_nodes n) -> descendant d c -> descendant d n.

(** ** The world the indexer runs in *)

(** The list objects of the module that outlive a call: the list bound to
    [STDLIB_IGNORE], the list created once as the default value of
    [folders_to_ignore], and the lists a caller passes in. *)
Inductive list_obj : Type :=
| ObjStdlibIgnore
| ObjDefaultIgnore
| ObjCaller (id : nat).

Definition list_obj_eqb (a b : list_obj) : bool :=
  match a, b with
  | ObjStdlibIgnore, ObjStdlibIgnore => true
  | ObjDefaultIgnore, ObjDefaultIgnore => true
  | ObjCaller i, ObjCaller j => i =? j
  | _, _ => false
  end.

(** The records handed to the logger; the elapsed time of the last one
    is left out. *)
Inductive log_record : Type :=
| WarningNotIndexing (base_folder : str)
| InfoReading (file : str)
| InfoParsing (file : str)
| InfoSaving
| InfoIndexed (base_folder : str).

(** [json_output] is the document at [JSON_OUTPUT], if there is one: the
    list that [save_json] wrote and [read_json_file] gives back.
    [iglob pattern] are the paths [glob.iglob(pattern, recursive=True)]
    yields, [isfile] is [os.path.isfile], [source_files] the text of
    the files that can be read. *)
Record World : Type := mkWorld {
  json_output : option (list FunctionType);
  iglob : str -> list str;
  isfile : str -> bool;
  source_files : str -> option str;
  lists : list_obj -> list str;
  logged : list log_record;
  stdout : list str
}.

Definition STDLIB_IGNORE : list str := [$"test"; $"site-packages"; $"lib2to3"].

(** The list objects as the module creates them when it is loaded. *)
Definition initial_lists (o : list_obj) : list str :=
  match o with
  | ObjStdlibIgnore => STDLIB_IGNORE
  | _ => []
  end.

Definition M (A : Type) : Type := World -> result A * World.

Definition ret {A} (a : A) : M A := fun w => (Ok a, w).
Definition raise {A} (e : exn) : M A := fun w => (Raise e, w).
Definition bind {A B} (m : M A) (k : A -> M B) : M B :=
  fun w =>
    match m w with
    | (inl e, w') => (inl e, w')
    | (inr a, w') => k a w'
    end.

Notation "'do' x <- m ; k" := (bind m (fun x => k))
  (at level 10, x name, m at level 100, k at level 200).
Notation "m ;; k" := (bind m (fun _ => k))
  (at level 100, k at level 200, right associativity).

Definition lift {A} (r : result A) : M A := fun w => (r, w).

Definition logger (r : log_record) : M unit :=
  fun w => (Ok tt,
            mkWorld w.(json_output) w.(iglob) w.(isfile) w.(source_files)
                    w.(lists) (w.(logged) ++ [r]) w.(stdout)).

Definition print (s : str) : M unit :=
  fun w => (Ok tt,
            mkWorld w.(json_output) w.(iglob) w.(isfile) w.(source_files)
                    w.(lists) w.(logged) (w.(stdout) ++ [s])).

Definition os_path_exists_JSON_OUTPUT : M bool :=
  fun w => (Ok (match w.(json_output) with Some _ => true | None => false end), w).

Definition read_json_file : M (list FunctionType) :=
  fun w => match w.(json_output) with
           | Some content => (Ok content, w)
           | None => (Raise OSError, w)
           end.

Definition save_json (content : list FunctionType) : M unit :=
  fun w => (Ok tt,
            mkWorld (Some content) w.(iglob) w.(isfile) w.(source_files)
                    w.(lists) w.(logged) w.(stdout)).

Definition read_source_file (file : str) : M str :=
  fun w => match w.(source_files) file with
           | Some text => (Ok text, w)
           | None => (Raise OSError, w)
           end.

Definition glob_iglob (pattern : str) : M (list str) :=
  fun w => (Ok (w.(iglob) pattern), w).

Definition os_path_isfile (file : str) : M bool :=
  fun w => (Ok (w.(isfile) file), w).

Definition read_list (o : list_obj) : M (list str) :=
  fun w => (Ok (w.(lists) o), w).

(** [a += b] on list objects: [a] is extended in place by the elements [b]
    has at that moment (so [a += a] doubles [a]). *)
Definition iadd (a b : list_obj) : M unit :=
  fun w =>
    let extended := w.(lists) a ++ w.(lists) b in
    (Ok tt,
     mkWorld w.(json_output) w.(iglob) w.(isfile) w.(source_files)
             (fun o => if list_obj_eqb o a then extended else w.(lists) o)
             w.(logged) w.(stdout)).

(** ** Extraction and indexing *)

(** [bool(set(a) & set(b))]: the two lists have an element in common. *)
Definition sets_intersect (a b : list str) : bool :=
  existsb (fun x => existsb (str_eqb x) b) a.

(** The test of the inner loop of [index_folder]:
    [isinstance(node, ast.FunctionDef) and not node.name.startswith('__')]. *)
Definition is_indexed_node (n : node) : bool :=
  match n with
  | FunctionDef node_name _ _ _ => negb (startswith node_name $"__")
  | OtherNode _ => false
  end.

(** The test of the outer loop of [index_folder]. *)
Definition want_to_continue (file : str) (folders_to_ignore : list str) : bool :=
  let current_dir := split "/"%char file in
  endswith file $"py" && negb (sets_intersect current_dir folders_to_ignore).

Section Indexer.
(** [ast.parse], which gives no tree for text that is not valid source,
    and [os.path.abspath]. *)
Variable ast_parse : str -> option node.
Variable os_path_abspath : str -> str.

Definition get_function_from_node (n : node) (file_path : str)
    (abspath : bool) : result FunctionType :=
  match n with
  | FunctionDef node_name node_args lineno _ =>
      Ok {| name := node_name;
            args := node_args;
            filename := if negb abspath then file_path
                        else os_path_abspath file_path;
            line := lineno |}
  | OtherNode _ => Raise AttributeError
  end.

(** The loop over [ast.walk(parsed)]. *)
Fixpoint index_nodes (nodes : list node) (file : str)
    (functions : list FunctionType) : result (list FunctionType) :=
  match nodes with
  | [] => Ok functions
  | n :: rest =>
      if is_indexed_node n then
        try new_function <- get_function_from_node n file false;
        index_nodes rest file (functions ++ [new_function])
      else index_nodes rest file functions
  end.

Definition parse (file : str) (source_code : str) : M node :=
  match ast_parse source_code with
  | Some parsed => ret parsed
  | None => raise SyntaxError
  end.

(** The loop over the paths that [glob.iglob] yields. *)
Fixpoint index_files (paths : list str) (folders_to_ignore : list_obj)
    (functions : list FunctionType) : M (list FunctionType) :=
  match paths with
  | [] => ret functions
  | file :: rest =>
      do ignored <- read_list folders_to_ignore;
      do is_file <- os_path_isfile file;
      if is_file && want_to_continue file ignored then
        logger (InfoReading file) ;;
        do source_code <- read_source_file file;
        logger (InfoParsing file) ;;
        do parsed <- parse file source_code;
        do functions' <- lift (index_nodes (walk parsed) file functions);
        index_files rest folders_to_ignore functions'
      else index_files rest folders_to_ignore functions
  end.

Definition index_folder (base_folder : str) (folders_to_ignore : list_obj)
    : M (list FunctionType) :=
  logger (WarningNotIndexing base_folder) ;;
  do cached <- os_path_exists_JSON_OUTPUT;
  if cached then read_json_file
  else
    iadd folders_to_ignore ObjStdlibIgnore ;;
    do paths <- glob_iglob (base_folder ++ $"/**");
    do functions <- index_files paths folders_to_ignore [];
    logger InfoSaving ;;
    save_json functions ;;
    logger (InfoIndexed base_folder) ;;
    ret functions.

(** The loop that prints the first [count] results. *)
Fixpoint print_results (functions : list RankedResult) (i count : nat)
    : M unit :=
  match count with
  | O => ret tt
  | S count' =>
      match nth_error functions i with
      | None => raise IndexError
      | Some r =>
          print (get_signature (snd r) true) ;;
          print_results functions (S i) count'
      end
  end.

(** The script of the module, with its two literals as parameters. *)
Definition main_with (raw_query base_folder : str) : M unit :=
  do query <- lift (normalize raw_query);
  do indexed <- index_folder base_folder ObjDefaultIgnore;
  do functions <- lift (sort query indexed);
  print_results functions 0 10.

Definition main : M unit := main_with $"mainloop()" $"./stdlib".
End Indexer.

(** ** Definitions used in the statements *)

Definition strip (a : str) : str := rstrip (lstrip a).

Definition canonical_name (name_part : str) : str :=
  join $"_" (filter (fun a => negb (str_eqb a [])) (split " "%char name_part)).

Definition canonical_args (args_part : str) : str :=
  join $", " (map (fun a => rstrip (lstrip a))
                  (split ","%char (replace ")"%char [] args_part))).

(** The order [sorted] establishes. *)
Definition key_le (A : Type) (key : A -> nat) (a b : A) : Prop :=
  key a <= key b.

(** The score [sort] gives a record for a query. *)
Definition signature_score (query : str) (f : FunctionType) : nat :=
  match normalize (get_signature f false) with
  | inr signature => lev query signature
  | inl _ => 0
  end.

(** The records one node contributes. *)
Definition node_records (file : str) (n : node) : list FunctionType :=
  match n with
  | FunctionDef node_name node_args lineno _ =>
      if negb (startswith node_name $"__")
      then [ {| name := node_name; args := node_args;
                filename := file; line := lineno |} ]
      else []
  | OtherNode _ => []
  end.

(** [w'] is [w] with more log records and nothing else changed. *)
Definition only_logged (w w' : World) : Prop :=
  w'.(json_output) = w.(json_output)
  /\ w'.(iglob) = w.(iglob)
  /\ w'.(isfile) = w.(isfile)
  /\ w'.(source_files) = w.(source_files)
  /\ w'.(lists) = w.(lists)
  /\ w'.(stdout) = w.(stdout)
  /\ exists records, w'.(logged) = w.(logged) ++ records.

(** The world in which the scan starts: the warning is logged and the
    ignore list is extended. *)
Definition scan_start (base_folder : str) (folders : list_obj) (w : World)
    : World :=
  snd (iadd folders ObjStdlibIgnore
            (snd (logger (WarningNotIndexing base_folder) w))).

(** The world in which a run that scanned ends. *)
Definition scan_end (base_folder : str) (functions : list FunctionType)
    (w : World) : World :=
  snd (logger (InfoIndexed base_folder)
              (snd (save_json functions (snd (logger InfoSaving w))))).

(** The cache document is deleted, as the warning of [index_folder]
    advises when a new scan is wanted. *)
Definition remove_json_output (w : World) : World :=
  mkWorld None w.(iglob) w.(isfile) w.(source_files)
          w.(lists) w.(logged) w.(stdout).

(** [n] calls [index_folder(base_folder)] in one process, without a
    second argument, the cache document being deleted before each. *)
Fixpoint default_calls (ast_parse : str -> option node)
    (os_path_abspath : str -> str) (n : nat) (base_folder : str) (w : World)
    : World :=
  match n with
  | O => w
  | S n' =>
      snd (index_folder ast_parse os_path_abspath base_folder ObjDefaultIgnore
             (remove_json_output
                (default_calls ast_parse os_path_abspath n' base_folder w)))
  end.

(** On an input with an empty argument list the output of [normalize]
    differs from the zero-argument form [name (  )]. *)
Definition empty_argument_not_clean (input name_part : str) : Prop :=
  exists out, normalize input = Ok out
              /\ out <> canonical_name name_part ++ $" (  )".

(** [sort] scores every record against the normalised form of the query
    it is given. *)
Definition scores_against_normalized_query (query : str)
    (functions : list FunctionType) : Prop :=
  forall normalized_query out,
    normalize query = Ok normalized_query ->
    sort query functions = Ok out ->
    Forall (fun r : RankedResult =>
              exists signature,
                normalize (get_signature (snd r) false) = Ok signature
                /\ fst r = lev normalized_query signature) out.

(** A call without a second argument appends the entries of
    [STDLIB_IGNORE] to the default list. *)
Definition default_call_grows_list ast_parse os_path_abspath
    (base_folder : str) (w : World) : Prop :=
  lists (snd (index_folder ast_parse os_path_abspath base_folder
                           ObjDefaultIgnore w)) ObjDefaultIgnore
  = w.(lists) ObjDefaultIgnore ++ w.(lists) ObjStdlibIgnore.

Definition function_f : FunctionType :=
  {| name := $"f"; args := []; filename := $"a.py"; line := 1 |}.

(** A module with a class that has [__init__] and [_private], the
    latter with a nested function. *)
Definition sample_module : node :=
  OtherNode
    [ OtherNode
        [ FunctionDef $"__init__" [$"self"] 2 [OtherNode []];
          FunctionDef $"_private" [$"self"; $"x"] 4
            [ OtherNode []; FunctionDef $"inner" [] 5 [] ] ];
      FunctionDef $"top" [$"a"; $"b"; $"c"] 8 [] ].

(** A parser for the examples: it knows one text. *)
Definition toy_parse (source_code : str) : option node :=
  if str_eqb source_code $"def joy(): pass"
  then Some (OtherNode [FunctionDef $"joy" [] 1 [OtherNode []]])
  else None.

(** A world whose cache document lists one function. *)
Definition cached_world : World :=
  {| json_output := Some [function_f];
     iglob := fun _ => [];
     isfile := fun _ => false;
     source_files := fun _ => None;
     lists := initial_lists;
     logged := [];
     stdout := [] |}.

(** A folder [pkg] with a file that parses and one that does not, and
    no cache document. *)
Definition broken_world : World :=
  {| json_output := None;
     iglob := fun _ => [$"pkg/"; $"pkg/ok.py"; $"pkg/bad.py"];
     isfile := fun p => str_eqb p $"pkg/ok.py" || str_eqb p $"pkg/bad.py";
     source_files := fun p =>
       if str_eqb p $"pkg/ok.py" then Some $"def joy(): pass"
       else if str_eqb p $"pkg/bad.py" then Some $"def ("
       else None;
     lists := initial_lists;
     logged := [];
     stdout := [] |}.

(** A folder [pkg] that holds a regular file called [happy], which has
    no extension. *)
Definition happy_world : World :=
  {| json_output := None;
     iglob := fun _ => [$"pkg/"; $"pkg/happy"];
     isfile := fun p => str_eqb p $"pkg/happy";
     source_files := fun p =>
       if str_eqb p $"pkg/happy" then Some $"def joy(): pass" else None;
     lists := initial_lists;
     logged := [];
     stdout := [] |}.

(** The records a run takes from one path: those of its tree when the
    path is a selected file that can be read and parsed, none otherwise. *)
Definition file_functions (ast_parse : str -> option node) (w : World)
    (ignored : list str) (file : str) : list FunctionType :=
  if w.(isfile) file && want_to_continue file ignored then
    match w.(source_files) file with
    | Some source_code =>
        match ast_parse source_code with
        | Some parsed => flat_map (node_records file) (walk parsed)
        | None => []
        end
    | None => []
    end
  else [].

(** The lines the script prints for a list of results. *)
Definition printed_lines (functions : list RankedResult) : list str :=
  map (fun r : RankedResult => get_signature (snd r) true) functions.

(** * Properties *)

(** ** The examples of the documentation *)

Example normalize_doc1 :
  normalize $"is zipfile (filename)" = Ok $"is_zipfile ( filename )".
Proof. reflexivity. Qed.

Example normalize_doc2 :
  normalize $"is    zipfile ( filename)" = Ok $"is_zipfile ( filename )".
Proof. reflexivity. Qed.

Example lev_kitten : lev $"kitten" $"sitting" = 3.
Proof. reflexivity. Qed.

(** ** Splitting and joining *)

Lemma split_nonempty (sep : ascii) (s : str) : split sep s <> [].
Proof.
  destruct s as [|c s]; simpl; [discriminate|].
  destruct (Ascii.eqb c sep); [discriminate|].
  destruct (split sep s); discriminate.
Qed.

Lemma split_without_sep (sep : ascii) (s : str) :
  ~ In sep s -> split sep s = [s].
Proof.
  induction s as [|c s IH]; intros Hn; simpl; [reflexivity|].
  destruct (Ascii.eqb_spec c sep) as [->|_].
  - exfalso; apply Hn; left; reflexivity.
  - rewrite IH; [reflexivity|]. intros H; apply Hn; right; exact H.
Qed.

Lemma split_at_sep (sep : ascii) (a b : str) :
  ~ In sep a -> split sep (a ++ sep :: b) = a :: split sep b.
Proof.
  induction a as [|c a IH]; intros Hn; simpl.
  - rewrite Ascii.eqb_refl; reflexivity.
  - destruct (Ascii.eqb_spec c sep) as [->|_].
    + exfalso; apply Hn; left; reflexivity.
    + rewrite IH; [reflexivity|]. intros H; apply Hn; right; exact H.
Qed.

(** The characters of a field are characters of the string, and none of
    them is the separator. *)
Lemma split_field_chars (sep : ascii) (s t : str) (c : ascii) :
  In t (split sep s) -> In c t -> In c s /\ c <> sep.
Proof.
  revert t; induction s as [|x s IH]; simpl; intros t Ht Hc.
  - destruct Ht as [<-|[]]. destruct Hc.
  - destruct (Ascii.eqb_spec x sep) as [->|Hx].
    + destruct Ht as [<-|Ht]; [destruct Hc|].
      destruct (IH _ Ht Hc); split; [right|]; assumption.
    + destruct (split sep s) as [|u us] eqn:E.
      * destruct Ht as [<-|[]]. destruct Hc as [<-|[]].
        split; [left; reflexivity|assumption].
      * destruct Ht as [<-|Ht].
        -- destruct Hc as [<-|Hc]; [split; [left; reflexivity|assumption]|].
           destruct (IH u (or_introl eq_refl) Hc); split; [right|]; assumption.
        -- destruct (IH t (or_intror Ht) Hc); split; [right|]; assumption.
Qed.

Lemma split_with_sep (sep : ascii) (s : str) :
  In sep s -> exists a b rest, split sep s = a :: b :: rest.
Proof.
  induction s as [|c s IH]; simpl; intros H; [destruct H|].
  destruct (Ascii.eqb_spec c sep) as [->|Hc].
  - destruct (split sep s) as [|b rest] eqn:E.
    + exfalso; exact (split_nonempty _ _ E).
    + exists [], b, rest; reflexivity.
  - destruct H as [H|H]; [contradiction|].
    destruct (IH H) as (a & b & rest & ->).
    exists (c :: a), b, rest; reflexivity.
Qed.

Lemma split_one_field (sep : ascii) (s t : str) :
  split sep s = [t] -> ~ In sep s.
Proof.
  intros E H. destruct (split_with_sep sep s H) as (a & b & rest & E').
  rewrite E' in E; discriminate.
Qed.

Lemma join_chars (sep : str) (parts : list str) (c : ascii) :
  In c (join sep parts) ->
  In c sep \/ exists t, In t parts /\ In c t.
Proof.
  induction parts as [|x rest IH]; simpl; intros H; [destruct H|].
  destruct rest as [|y rest].
  - right; exists x; split; [left; reflexivity|assumption].
  - apply in_app_or in H; destruct H as [H|H].
    + right; exists x; split; [left; reflexivity|assumption].
    + apply in_app_or in H; destruct H as [H|H]; [left; assumption|].
      destruct (IH H) as [H'|(t & Ht & Hc)]; [left; assumption|].
      right; exists t; split; [right|]; assumption.
Qed.

Lemma replace_chars (old c : ascii) (s : str) :
  In c (replace old [] s) -> In c s /\ c <> old.
Proof.
  unfold replace; intros H. apply in_flat_map in H.
  destruct H as (x & Hx & Hc).
  destruct (Ascii.eqb_spec x old) as [->|Hn]; [destruct Hc|].
  destruct Hc as [<-|[]]; split; assumption.
Qed.

Lemma replace_without_old (old : ascii) (s : str) :
  ~ In old s -> replace old [] s = s.
Proof.
  unfold replace; induction s as [|c s IH]; intros Hn; simpl; [reflexivity|].
  destruct (Ascii.eqb_spec c old) as [->|_].
  - exfalso; apply Hn; left; reflexivity.
  - simpl; rewrite IH; [reflexivity|]. intros H; apply Hn; right; exact H.
Qed.

Lemma replace_app (old : ascii) (new a b : str) :
  replace old new (a ++ b) = replace old new a ++ replace old new b.
Proof. unfold replace; apply flat_map_app. Qed.

(** ** Stripping *)

Lemma lstrip_chars (s : str) (c : ascii) : In c (lstrip s) -> In c s.
Proof.
  induction s as [|x s IH]; simpl; [tauto|].
  destruct (is_space x); [intros H; right; apply IH, H|tauto].
Qed.

Lemma rstrip_chars (s : str) (c : ascii) : In c (rstrip s) -> In c s.
Proof.
  induction s as [|x s IH]; simpl; [tauto|].
  destruct (rstrip s) as [|y r].
  - destruct (is_space x); simpl; tauto.
  - intros [H|H]; [left; assumption|right; apply IH, H].
Qed.

Lemma strip_chars (s : str) (c : ascii) : In c (strip s) -> In c s.
Proof. intros H; apply lstrip_chars, rstrip_chars, H. Qed.

Lemma rstrip_snoc_space (s : str) (c : ascii) :
  is_space c = true -> rstrip (s ++ [c]) = rstrip s.
Proof.
  intros Hc; induction s as [|x s IH]; simpl.
  - rewrite Hc; reflexivity.
  - rewrite IH; reflexivity.
Qed.

Lemma strip_snoc_space (s : str) (c : ascii) :
  is_space c = true -> strip (s ++ [c]) = strip s.
Proof.
  intros Hc; unfold strip; induction s as [|x s IH]; simpl.
  - rewrite Hc; reflexivity.
  - destruct (is_space x); [exact IH|].
    change (x :: s ++ [c]) with ((x :: s) ++ [c]).
    apply rstrip_snoc_space, Hc.
Qed.

Lemma strip_cons_space (s : str) (c : ascii) :
  is_space c = true -> strip (c :: s) = strip s.
Proof. intros Hc; unfold strip; simpl; rewrite Hc; reflexivity. Qed.

Lemma rstrip_idempotent (s : str) : rstrip (rstrip s) = rstrip s.
Proof.
  induction s as [|c s IH]; simpl; [reflexivity|].
  destruct (rstrip s) as [|y r] eqn:E.
  - destruct (is_space c) eqn:Hc; simpl; [reflexivity|].
    rewrite Hc; reflexivity.
  - simpl in IH |- *. simpl. rewrite IH. reflexivity.
Qed.

Lemma lstrip_head (s : str) :
  lstrip s = [] \/ exists c t, lstrip s = c :: t /\ is_space c = false.
Proof.
  induction s as [|x s IH]; simpl; [left; reflexivity|].
  destruct (is_space x) eqn:Hx; [exact IH|].
  right; exists x, s; split; [reflexivity|assumption].
Qed.

Lemma strip_idempotent (s : str) : strip (strip s) = strip s.
Proof.
  unfold strip. destruct (lstrip_head s) as [->|(c & t & -> & Hc)].
  - reflexivity.
  - assert (H : lstrip (rstrip (c :: t)) = rstrip (c :: t)).
    { simpl. destruct (rstrip t); [rewrite Hc|]; simpl; rewrite Hc; reflexivity. }
    rewrite H. apply rstrip_idempotent.
Qed.

Lemma strip_spaces (s : str) : forallb is_space s = true -> strip s = [].
Proof.
  unfold strip; induction s as [|c s IH]; simpl; [reflexivity|].
  intros H; apply andb_true_iff in H; destruct H as [Hc Hs].
  rewrite Hc; apply IH, Hs.
Qed.

(** ** The two halves of [normalize] *)

Lemma normalize_fields (query name_part args_part : str) (rest : list str) :
  split "("%char query = name_part :: args_part :: rest ->
  normalize query
  = Ok (canonical_name name_part ++ $" ( " ++ canonical_args args_part ++ $" )").
Proof. intros E; unfold normalize; rewrite E; reflexivity. Qed.

Lemma normalize_without_paren (query : str) :
  ~ In "("%char query -> normalize query = Raise IndexError.
Proof.
  intros H; unfold normalize; rewrite (split_without_sep _ _ H); reflexivity.
Qed.

Lemma str_eqb_nil (a : str) : str_eqb a [] = true <-> a = [].
Proof.
  unfold str_eqb; destruct (list_eq_dec ascii_dec a []); split; congruence.
Qed.

Lemma canonical_name_chars (name_part : str) (c : ascii) :
  In c (canonical_name name_part) ->
  c <> " "%char /\ (c = "_"%char \/ In c name_part).
Proof.
  unfold canonical_name; intros H.
  apply join_chars in H; destruct H as [H|(t & Ht & Hc)].
  - simpl in H; destruct H as [<-|[]]. split; [discriminate|left; reflexivity].
  - apply filter_In in Ht; destruct Ht as [Ht _].
    destruct (split_field_chars _ _ _ _ Ht Hc); split; [|right]; assumption.
Qed.

Lemma canonical_args_chars (args_part : str) (c : ascii) :
  In c (canonical_args args_part) ->
  c = ","%char \/ c = " "%char \/ (In c args_part /\ c <> ")"%char).
Proof.
  unfold canonical_args; intros H.
  apply join_chars in H; destruct H as [H|(t & Ht & Hc)].
  - simpl in H; destruct H as [<-|[<-|[]]]; auto.
  - apply in_map_iff in Ht; destruct Ht as (u & <- & Hu).
    apply (strip_chars u) in Hc.
    destruct (split_field_chars _ _ _ _ Hu Hc) as [Hr _].
    apply replace_chars in Hr. auto.
Qed.

(** A canonical name is what [normalize] reads back from it. *)
Lemma canonical_name_stable (name_part : str) :
  canonical_name (canonical_name name_part ++ $" ") = canonical_name name_part.
Proof.
  set (n := canonical_name name_part).
  assert (Hn : ~ In " "%char n).
  { intros H; apply canonical_name_chars in H; destruct H as [H _]; congruence. }
  unfold canonical_name at 1.
  change (n ++ $" ") with (n ++ " "%char :: []).
  rewrite (split_at_sep _ _ _ Hn). simpl.
  destruct (str_eqb n []) eqn:E; simpl.
  - apply str_eqb_nil in E; symmetry; exact E.
  - reflexivity.
Qed.

Lemma split_padded_join (ts : list str) :
  ts <> [] ->
  Forall (fun t => ~ In ","%char t) ts ->
  map strip (split ","%char (" "%char :: join $", " ts ++ [" "%char]))
  = map strip ts.
Proof.
  induction ts as [|t ts IH]; intros Hne Hall; [congruence|].
  inversion Hall as [|? ? Ht Hts]; subst.
  destruct ts as [|t2 ts].
  - simpl join. rewrite split_without_sep.
    + simpl. rewrite strip_cons_space by reflexivity.
      rewrite strip_snoc_space by reflexivity. reflexivity.
    + intros [H|H]; [discriminate|].
      apply in_app_or in H; destruct H as [H|[H|[]]]; [auto|discriminate].
  - change (join $", " (t :: t2 :: ts))
      with (t ++ ","%char :: " "%char :: join $", " (t2 :: ts)).
    replace (" "%char :: (t ++ ","%char :: " "%char :: join $", " (t2 :: ts))
                         ++ [" "%char])
      with ((" "%char :: t)
              ++ ","%char :: (" "%char :: join $", " (t2 :: ts) ++ [" "%char])).
    2: { simpl. rewrite <- app_assoc. reflexivity. }
    rewrite split_at_sep.
    + simpl map. rewrite strip_cons_space by reflexivity.
      f_equal. apply IH; [discriminate|assumption].
    + intros [H|H]; [discriminate|auto].
Qed.

Lemma canonical_args_stable (args_part : str) :
  canonical_args ($" " ++ canonical_args args_part ++ $" )")
  = canonical_args args_part.
Proof.
  set (a := canonical_args args_part).
  assert (Ha : ~ In ")"%char a).
  { intros H; apply canonical_args_chars in H.
    destruct H as [H|[H|[_ H]]]; congruence. }
  unfold canonical_args at 1.
  change ($" " ++ a ++ $" )") with ([" "%char] ++ a ++ [" "%char; ")"%char]).
  rewrite !replace_app, (replace_without_old _ _ Ha).
  change (replace ")"%char [] [" "%char]) with [" "%char].
  change (replace ")"%char [] [" "%char; ")"%char]) with [" "%char].
  change ([" "%char] ++ a ++ [" "%char]) with (" "%char :: a ++ [" "%char]).
  unfold a, canonical_args.
  change (fun a0 : str => rstrip (lstrip a0)) with strip.
  set (us := split ","%char (replace ")"%char [] args_part)).
  rewrite split_padded_join.
  - rewrite map_map. f_equal. apply map_ext; intros u; apply strip_idempotent.
  - pose proof (split_nonempty ","%char (replace ")"%char [] args_part)) as Hne.
    fold us in Hne. destruct us; [congruence|discriminate].
  - apply Forall_forall; intros t Ht Hc.
    apply in_map_iff in Ht; destruct Ht as (u & <- & Hu).
    apply strip_chars in Hc.
    destruct (split_field_chars _ _ _ _ Hu Hc) as [_ Hneq]; congruence.
Qed.

Lemma normalize_canonical (name_part args_part : str) :
  ~ In "("%char name_part -> ~ In "("%char args_part ->
  let y := canonical_name name_part ++ $" ( " ++ canonical_args args_part ++ $" )" in
  normalize y = Ok y.
Proof.
  intros Hn Ha y.
  assert (E : split "("%char y
              = [canonical_name name_part ++ $" ";
                 $" " ++ canonical_args args_part ++ $" )"]).
  { unfold y.
    replace (canonical_name name_part ++ $" ( " ++ canonical_args args_part ++ $" )")
      with ((canonical_name name_part ++ $" ")
              ++ "("%char :: ($" " ++ canonical_args args_part ++ $" )")).
    2: { rewrite <- app_assoc; reflexivity. }
    rewrite split_at_sep.
    - rewrite split_without_sep; [reflexivity|].
      cbn [list_ascii_of_string app].
      intros [H|H]; [discriminate|].
      apply in_app_or in H; destruct H as [H|H].
      + apply canonical_args_chars in H.
        destruct H as [H|[H|[H _]]]; [discriminate|discriminate|auto].
      + simpl in H; destruct H as [H|[H|[]]]; discriminate.
    - intros H; apply in_app_or in H; destruct H as [H|H].
      + apply canonical_name_chars in H.
        destruct H as [_ [H|H]]; [discriminate|auto].
      + simpl in H; destruct H as [H|[]]; discriminate. }
  rewrite (normalize_fields _ E).
  rewrite canonical_name_stable, canonical_args_stable. reflexivity.
Qed.

(** ** Claims about [normalize] *)

(** On an input with an opening parenthesis [normalize] returns a string
    that it maps to itself. *)
Lemma normalize_fixed_point (x : str) :
  In "("%char x ->
  exists y, normalize x = Ok y /\ normalize y = Ok y.
Proof.
  intros Hx.
  destruct (split_with_sep _ _ Hx) as (a & b & rest & E).
  assert (Ha : ~ In "("%char a).
  { intros H. refine (proj2 (split_field_chars "("%char x a _ _ H) eq_refl).
    rewrite E; left; reflexivity. }
  assert (Hb : ~ In "("%char b).
  { intros H. refine (proj2 (split_field_chars "("%char x b _ _ H) eq_refl).
    rewrite E; right; left; reflexivity. }
  pose proof (normalize_canonical _ _ Ha Hb) as Hy; cbv zeta in Hy.
  eexists; split; [apply (normalize_fields _ E)|exact Hy].
Qed.

(** C9. Normalisation is idempotent: on every input that contains an
    opening parenthesis [normalize] returns a string, that string is a
    fixed point of [normalize], and so normalising twice gives what
    normalising once gives. *)
Theorem normalize_idempotent (x : str) :
  In "("%char x ->
  exists y, normalize x = Ok y
            /\ normalize y = Ok y
            /\ (try y' <- normalize x; normalize y') = normalize x.
Proof.
  intros Hx. destruct (normalize_fixed_point _ Hx) as (y & E & Hy).
  exists y; split; [exact E|]. split; [exact Hy|].
  rewrite E; simpl bindR; exact Hy.
Qed.

Lemma normalize_idempotent_witness :
  exists y, normalize $"is   zipfile( filename,mode )" = Ok y
            /\ normalize y = Ok y
            /\ (try y' <- normalize $"is   zipfile( filename,mode )"; normalize y')
               = normalize $"is   zipfile( filename,mode )".
Proof.
  apply (normalize_idempotent $"is   zipfile( filename,mode )").
  simpl; tauto.
Defined.

(** On [f()] and on [f(   )] the output is the zero-argument form
    [f (  )] itself. *)
Lemma normalize_empty_args_clean_form :
  ~ empty_argument_not_clean $"f()" $"f"
  /\ ~ empty_argument_not_clean $"f(   )" $"f".
Proof.
  split; intros (out & E & Hne); apply Hne;
    vm_compute in E; injection E as <-; reflexivity.
Qed.

(** C8, amended. When the argument list is empty or holds only white
    space, the single empty token that the split yields is joined to the
    empty string, and the output is exactly the canonical name followed by
    [ (  )]: the zero-argument form, with nothing added. *)
Theorem normalize_empty_args (name_part ws : str) :
  ~ In "("%char name_part ->
  forallb is_space ws = true ->
  normalize (name_part ++ $"(" ++ ws ++ $")")
  = Ok (canonical_name name_part ++ $" (  )").
Proof.
  intros Hn Hws.
  assert (Hsp : forall c, In c ws -> is_space c = true).
  { apply forallb_forall, Hws. }
  assert (E : split "("%char (name_part ++ $"(" ++ ws ++ $")")
              = [name_part; ws ++ $")"]).
  { change (name_part ++ $"(" ++ ws ++ $")")
      with (name_part ++ "("%char :: (ws ++ $")")).
    rewrite (split_at_sep _ _ _ Hn), split_without_sep; [reflexivity|].
    intros H; apply in_app_or in H; destruct H as [H|H].
    - apply Hsp in H; discriminate.
    - simpl in H; destruct H as [H|[]]; discriminate. }
  rewrite (normalize_fields _ E). unfold canonical_args.
  rewrite replace_app, replace_without_old.
  2: { intros H; apply Hsp in H; discriminate. }
  change (replace ")"%char [] $")") with (@nil ascii). rewrite app_nil_r.
  rewrite split_without_sep.
  2: { intros H; apply Hsp in H; discriminate. }
  simpl map. change (rstrip (lstrip ws)) with (strip ws).
  rewrite (strip_spaces _ Hws). reflexivity.
Qed.

Lemma normalize_empty_args_witness :
  normalize ($"is  zipfile" ++ $"(" ++ $"   " ++ $")")
  = Ok (canonical_name $"is  zipfile" ++ $" (  )").
Proof.
  apply normalize_empty_args.
  - simpl; intuition discriminate.
  - reflexivity.
Defined.

(** C5. An input without an opening parenthesis has a single field, so
    taking the second one raises: [normalize] fails with [IndexError], the
    error the design calls MalformedSignature.  Nothing catches it: the
    script that normalises a query stops with the same error, before it
    indexes, logs or prints anything. *)
Theorem normalize_missing_paren (query : str) :
  ~ In "("%char query ->
  normalize query = Raise IndexError
  /\ forall ast_parse os_path_abspath base_folder w,
       main_with ast_parse os_path_abspath query base_folder w
       = (Raise IndexError, w).
Proof.
  intros H; split; [apply normalize_without_paren, H|].
  intros; unfold main_with, bind, lift.
  rewrite (normalize_without_paren _ H); reflexivity.
Qed.

Lemma normalize_missing_paren_witness :
  normalize $"is zipfile" = Raise IndexError
  /\ forall ast_parse os_path_abspath base_folder w,
       main_with ast_parse os_path_abspath $"is zipfile" base_folder w
       = (Raise IndexError, w).
Proof.
  apply (normalize_missing_paren $"is zipfile").
  simpl; intuition discriminate.
Defined.

(** ** The built-in sort *)

Section SortedFacts.
Variable A : Type.
Variable key : A -> nat.

Local Abbreviation key_le := (key_le key).

Lemma insert_by_key_perm (x : A) (l : list A) :
  Permutation (insert_by_key key x l) (x :: l).
Proof.
  induction l as [|y l IH]; simpl; [apply Permutation_refl|].
  destruct (key x <=? key y); [apply Permutation_refl|].
  eapply perm_trans; [apply perm_skip, IH|apply perm_swap].
Qed.

Lemma sorted_perm (l : list A) : Permutation (sorted key l) l.
Proof.
  induction l as [|x l IH]; simpl; [apply perm_nil|].
  eapply perm_trans; [apply insert_by_key_perm|apply perm_skip, IH].
Qed.

Lemma insert_by_key_sorted (x : A) (l : list A) :
  StronglySorted key_le l -> StronglySorted key_le (insert_by_key key x l).
Proof.
  induction 1 as [|y l Hs IH Hy]; simpl.
  - constructor; constructor.
  - destruct (Nat.leb_spec (key x) (key y)) as [Hle|Hlt].
    + constructor; [constructor; assumption|].
      constructor; [exact Hle|].
      eapply Forall_impl; [|exact Hy].
      intros z Hz; unfold key_le in *; lia.
    + constructor; [exact IH|].
      eapply Permutation_Forall;
        [apply Permutation_sym, insert_by_key_perm|].
      constructor; [unfold key_le; lia|exact Hy].
Qed.

Lemma sorted_sorted (l : list A) : StronglySorted key_le (sorted key l).
Proof.
  induction l as [|x l IH]; simpl; [constructor|].
  apply insert_by_key_sorted, IH.
Qed.

(** Stability: among the elements of one key, the order is the one of
    the input. *)
Lemma insert_by_key_stable (k : nat) (x : A) (l : list A) :
  filter (fun r => key r =? k) (insert_by_key key x l)
  = filter (fun r => key r =? k) (x :: l).
Proof.
  induction l as [|y l IH]; simpl; [reflexivity|].
  destruct (Nat.leb_spec (key x) (key y)) as [Hle|Hlt]; [reflexivity|].
  simpl. rewrite IH. simpl.
  destruct (Nat.eqb_spec (key y) k) as [Hy|Hy];
    destruct (Nat.eqb_spec (key x) k) as [Hx|Hx]; try reflexivity.
  exfalso; lia.
Qed.

Lemma sorted_stable (k : nat) (l : list A) :
  filter (fun r => key r =? k) (sorted key l)
  = filter (fun r => key r =? k) l.
Proof.
  induction l as [|x l IH]; simpl; [reflexivity|].
  rewrite insert_by_key_stable. simpl. rewrite IH. reflexivity.
Qed.
End SortedFacts.

(** ** Claims about [sort] *)

Lemma get_signature_has_paren (f : FunctionType) :
  In "("%char (get_signature f false).
Proof.
  unfold get_signature. apply in_or_app; right. left; reflexivity.
Qed.

Lemma signature_score_spec (query : str) (f : FunctionType) :
  exists signature,
    normalize (get_signature f false) = Ok signature
    /\ signature_score query f = lev query signature.
Proof.
  destruct (normalize_fixed_point _ (get_signature_has_paren f)) as (y & E & _).
  exists y; split; [exact E|]. unfold signature_score; rewrite E; reflexivity.
Qed.

Lemma sort_loop_scores (query : str) (functions : list FunctionType)
    (acc : list RankedResult) :
  sort_loop query functions acc
  = Ok (acc ++ map (fun f => (signature_score query f, f)) functions).
Proof.
  revert acc; induction functions as [|f rest IH]; intros acc;
    cbn [sort_loop map].
  - rewrite app_nil_r; reflexivity.
  - destruct (signature_score_spec query f) as (sig & E & Hs).
    rewrite E; cbn [bindR Ok]. rewrite IH, <- app_assoc, Hs. reflexivity.
Qed.

Lemma sort_eq (query : str) (functions : list FunctionType) :
  sort query functions
  = Ok (sorted (fun x : RankedResult => fst x)
               (map (fun f => (signature_score query f, f)) functions)).
Proof. unfold sort; rewrite sort_loop_scores; reflexivity. Qed.

(** For the query [f()] and the record of a function [f] without
    parameters, [sort] gives the score 3, the distance of [f()] to
    [f (  )], where the distance of the normalised query would be 0. *)
Lemma sort_does_not_normalize_query :
  ~ scores_against_normalized_query $"f()" [function_f].
Proof.
  intros H.
  specialize (H $"f (  )" [(3, function_f)] eq_refl eq_refl).
  inversion H as [|r l (signature & E & Hs) _]; subst.
  vm_compute in E; injection E as <-. vm_compute in Hs. discriminate.
Qed.

(** C1, amended. [sort] always returns; its result pairs every record of
    the input with the Levenshtein distance between the query exactly as
    it was passed and the normalised signature of the record.  [sort]
    does not normalise the query: its caller does. *)
Theorem sort_scores_query_as_passed (query : str)
    (functions : list FunctionType) :
  exists out,
    sort query functions = Ok out
    /\ Permutation (map snd out) functions
    /\ Forall (fun r : RankedResult =>
                 exists signature,
                   normalize (get_signature (snd r) false) = Ok signature
                   /\ fst r = lev query signature) out.
Proof.
  eexists; split; [apply sort_eq|].
  set (scored := map (fun f => (signature_score query f, f)) functions).
  pose proof (sorted_perm (fun x : RankedResult => fst x) scored) as Hp.
  split.
  - eapply perm_trans; [apply Permutation_map, Hp|].
    unfold scored; rewrite map_map; simpl. rewrite map_id.
    apply Permutation_refl.
  - eapply Permutation_Forall; [apply Permutation_sym, Hp|].
    unfold scored; apply Forall_forall; intros r Hr.
    apply in_map_iff in Hr; destruct Hr as (f & <- & _); simpl.
    destruct (signature_score_spec query f) as (sig & E & Hs).
    exists sig; split; assumption.
Qed.

(** The script normalises the raw query and hands the result to [sort]. *)
Lemma main_with_normalizes_query ast_parse os_path_abspath
    (raw_query normalized_query base_folder : str) (w : World) :
  normalize raw_query = Ok normalized_query ->
  main_with ast_parse os_path_abspath raw_query base_folder w
  = (do indexed <- index_folder ast_parse os_path_abspath base_folder
                                ObjDefaultIgnore;
     do functions <- lift (sort normalized_query indexed);
     print_results functions 0 10) w.
Proof.
  intros E; unfold main_with; unfold bind at 1; unfold lift at 1.
  rewrite E; reflexivity.
Qed.

(** C3. [sort] always returns; the result is in ascending order of
    score, it holds the pairs of the input records and nothing else, and
    the records of any one score come in the order they have in the
    input. *)
Theorem sort_ascending_stable (query : str) (functions : list FunctionType) :
  exists out,
    sort query functions = Ok out
    /\ StronglySorted (fun a b : RankedResult => fst a <= fst b) out
    /\ Permutation out (map (fun f => (signature_score query f, f)) functions)
    /\ forall k,
         map snd (filter (fun r : RankedResult => fst r =? k) out)
         = filter (fun f => signature_score query f =? k) functions.
Proof.
  eexists; split; [apply sort_eq|].
  split; [apply (sorted_sorted (fun x : RankedResult => fst x))|].
  split; [apply sorted_perm|].
  intros k. rewrite sorted_stable.
  induction functions as [|f rest IH]; simpl; [reflexivity|].
  destruct (signature_score query f =? k); simpl; rewrite IH; reflexivity.
Qed.

Example sort_ranking :
  sort $"foo ( x )"
       [ {| name := $"baz"; args := [$"y"]; filename := $"m.py"; line := 3 |};
         {| name := $"foobar"; args := [$"x"]; filename := $"m.py"; line := 2 |};
         {| name := $"foo"; args := [$"x"]; filename := $"m.py"; line := 1 |} ]
  = Ok [ (0, {| name := $"foo"; args := [$"x"]; filename := $"m.py"; line := 1 |});
         (3, {| name := $"foobar"; args := [$"x"]; filename := $"m.py"; line := 2 |});
         (4, {| name := $"baz"; args := [$"y"]; filename := $"m.py"; line := 3 |}) ].
Proof. vm_compute. reflexivity. Qed.

(** ** The tree walk *)

Lemma node_size_children (n : node) :
  node_size n = S (forest_size (iter_child_nodes n)).
Proof. destruct n; reflexivity. Qed.

Lemma forest_size_app (a b : list node) :
  forest_size (a ++ b) = forest_size a + forest_size b.
Proof. unfold forest_size; rewrite map_app, list_sum_app; reflexivity. Qed.

(** With fuel for every node of the queue and below it, the walk yields
    every node of the queue and every node below one. *)
Lemma walk_loop_complete (fuel : nat) :
  forall todo, forest_size todo <= fuel ->
  forall d n, In n todo -> descendant d n -> In d (walk_loop fuel todo).
Proof.
  induction fuel as [|fuel IH]; intros todo Hsize d n Hn Hd.
  - exfalso. destruct todo as [|m rest]; [destruct Hn|].
    unfold forest_size in Hsize; simpl in Hsize.
    rewrite node_size_children in Hsize; lia.
  - destruct todo as [|m rest]; [destruct Hn|].
    assert (Hfuel : forest_size (rest ++ iter_child_nodes m) <= fuel).
    { rewrite forest_size_app. unfold forest_size in Hsize |- *.
      simpl in Hsize. rewrite node_size_children in Hsize.
      unfold forest_size in Hsize. lia. }
    simpl. destruct Hn as [<-|Hn].
    + inversion Hd as [|c n' Hc Hdc]; subst.
      * left; reflexivity.
      * right. apply (IH _ Hfuel d c); [|exact Hdc].
        apply in_or_app; right; exact Hc.
    + right. apply (IH _ Hfuel d n); [|exact Hd].
      apply in_or_app; left; exact Hn.
Qed.

Lemma walk_complete (parsed d : node) :
  descendant d parsed -> In d (walk parsed).
Proof.
  intros Hd. unfold walk.
  apply (walk_loop_complete (fuel := node_size parsed) [parsed]) with (n := parsed).
  - unfold forest_size; simpl; lia.
  - left; reflexivity.
  - exact Hd.
Qed.

(** ** The extractor *)

Lemma index_nodes_records os_path_abspath (nodes : list node) (file : str)
    (functions : list FunctionType) :
  index_nodes os_path_abspath nodes file functions
  = Ok (functions ++ flat_map (node_records file) nodes).
Proof.
  revert functions; induction nodes as [|n rest IH]; intros functions; simpl.
  - rewrite app_nil_r; reflexivity.
  - destruct n as [nm a l ch|ch]; simpl.
    + destruct (startswith nm _); simpl.
      * apply IH.
      * rewrite IH, <- app_assoc; reflexivity.
    + apply IH.
Qed.

(** C6. On every tree the extractor returns; no record it emits has a
    name that starts with two underscores; and every function definition
    found anywhere in the tree whose name does not start with two
    underscores has its record in the output.  So [__init__] never
    appears, and [_private] does. *)
Theorem extractor_excludes_only_dunder os_path_abspath (parsed : node)
    (file : str) :
  exists functions,
    index_nodes os_path_abspath (walk parsed) file [] = Ok functions
    /\ (forall f, In f functions -> startswith f.(name) $"__" = false)
    /\ (forall f, In f functions -> f.(name) <> $"__init__")
    /\ (forall node_name node_args lineno children,
          descendant (FunctionDef node_name node_args lineno children) parsed ->
          startswith node_name $"__" = false ->
          In {| name := node_name; args := node_args;
                filename := file; line := lineno |} functions)
    /\ (forall node_args lineno children,
          descendant (FunctionDef $"_private" node_args lineno children) parsed ->
          In {| name := $"_private"; args := node_args;
                filename := file; line := lineno |} functions).
Proof.
  eexists; split; [apply index_nodes_records|]. simpl app.
  assert (Hno : forall f,
             In f (flat_map (node_records file) (walk parsed)) ->
             startswith f.(name) $"__" = false).
  { intros f Hf. apply in_flat_map in Hf; destruct Hf as (n & _ & Hf).
    destruct n as [nm a l ch|ch]; unfold node_records in Hf; [|destruct Hf].
    destruct (startswith nm $"__") eqn:E; cbn [negb] in Hf; [destruct Hf|].
    destruct Hf as [<-|[]]; exact E. }
  assert (Hin : forall node_name node_args lineno children,
             descendant (FunctionDef node_name node_args lineno children) parsed ->
             startswith node_name $"__" = false ->
             In {| name := node_name; args := node_args;
                   filename := file; line := lineno |}
                (flat_map (node_records file) (walk parsed))).
  { intros nm a l ch Hd Hs. apply in_flat_map.
    exists (FunctionDef nm a l ch); split; [apply walk_complete, Hd|].
    unfold node_records; rewrite Hs; left; reflexivity. }
  split; [exact Hno|]. split.
  - intros f Hf E. apply Hno in Hf. rewrite E in Hf. discriminate.
  - split; [exact Hin|]. intros a l ch Hd. apply (Hin _ _ _ _ Hd). reflexivity.
Qed.

Lemma extractor_excludes_only_dunder_witness :
  exists functions,
    index_nodes (fun p => p) (walk sample_module) $"m.py" [] = Ok functions
    /\ In {| name := $"_private"; args := [$"self"; $"x"];
             filename := $"m.py"; line := 4 |} functions.
Proof.
  destruct (extractor_excludes_only_dunder (fun p => p) sample_module $"m.py")
    as (functions & E & _ & _ & _ & Hp).
  exists functions; split; [exact E|].
  apply (Hp _ _ [ OtherNode []; FunctionDef $"inner" [] 5 [] ]).
  eapply desc_child; [left; reflexivity|].
  eapply desc_child; [right; left; reflexivity|].
  apply desc_self.
Defined.

Example extract_sample_module :
  index_nodes (fun p => p) (walk sample_module) $"m.py" []
  = Ok [ {| name := $"top"; args := [$"a"; $"b"; $"c"];
            filename := $"m.py"; line := 8 |};
         {| name := $"_private"; args := [$"self"; $"x"];
            filename := $"m.py"; line := 4 |};
         {| name := $"inner"; args := [];
            filename := $"m.py"; line := 5 |} ].
Proof. reflexivity. Qed.

(** ** The indexing run *)

Lemma only_logged_refl (w : World) : only_logged w w.
Proof.
  repeat split. exists []; rewrite app_nil_r; reflexivity.
Qed.

Lemma only_logged_trans (w1 w2 w3 : World) :
  only_logged w1 w2 -> only_logged w2 w3 -> only_logged w1 w3.
Proof.
  intros (A1 & A2 & A3 & A4 & A5 & A6 & r1 & A7)
         (B1 & B2 & B3 & B4 & B5 & B6 & r2 & B7).
  repeat split; try congruence.
  exists (r1 ++ r2). rewrite B7, A7, app_assoc; reflexivity.
Qed.

Lemma only_logged_logger (r : log_record) (w : World) :
  only_logged w (snd (logger r w)).
Proof. repeat split. exists [r]; reflexivity. Qed.

Section IndexerFacts.
Variable ast_parse : str -> option node.
Variable os_path_abspath : str -> str.

Local Abbreviation run_files := (index_files ast_parse os_path_abspath).
Local Abbreviation run_folder := (index_folder ast_parse os_path_abspath).

(** One turn of the loop over the paths. *)
Lemma index_files_cons (file : str) (rest : list str) (folders : list_obj)
    (functions : list FunctionType) (w : World) :
  run_files (file :: rest) folders functions w
  = if w.(isfile) file && want_to_continue file (w.(lists) folders) then
      let w1 := snd (logger (InfoReading file) w) in
      match w.(source_files) file with
      | None => (Raise OSError, w1)
      | Some source_code =>
          let w2 := snd (logger (InfoParsing file) w1) in
          match ast_parse source_code with
          | None => (Raise SyntaxError, w2)
          | Some parsed =>
              run_files rest folders
                (functions
                   ++ flat_map (node_records file) (walk parsed))
                w2
          end
      end
    else run_files rest folders functions w.
Proof.
  cbn [index_files].
  unfold bind, read_list, os_path_isfile, Ok.
  destruct (isfile w file && want_to_continue file (lists w folders));
    [|reflexivity].
  unfold logger, read_source_file, Ok; cbn [source_files snd].
  destruct (source_files w file) as [source_code|]; [|reflexivity].
  unfold parse, ret, raise.
  destruct (ast_parse source_code) as [parsed|]; [|reflexivity].
  unfold lift, Ok. rewrite index_nodes_records. reflexivity.
Qed.

(** The loop changes nothing but the log, however it ends. *)
Lemma index_files_only_logged (folders : list_obj) (paths : list str) :
  forall functions w,
    only_logged w (snd (run_files paths folders functions w)).
Proof.
  induction paths as [|file rest IH]; intros functions w.
  - apply only_logged_refl.
  - rewrite index_files_cons.
    destruct (isfile w file && want_to_continue file (lists w folders));
      [|apply IH].
    cbv zeta.
    destruct (source_files w file) as [source_code|];
      [|apply only_logged_logger].
    assert (H2 : only_logged w
                   (snd (logger (InfoParsing file)
                                (snd (logger (InfoReading file) w))))).
    { eapply only_logged_trans; apply only_logged_logger. }
    destruct (ast_parse source_code) as [parsed|]; [|exact H2].
    eapply only_logged_trans; [exact H2|apply IH].
Qed.

(** A selected file that does not parse makes the loop raise. *)
Lemma index_files_parse_failure (folders : list_obj) (paths : list str) :
  forall functions w file source_code,
    In file paths ->
    w.(isfile) file = true ->
    want_to_continue file (w.(lists) folders) = true ->
    w.(source_files) file = Some source_code ->
    ast_parse source_code = None ->
    exists e w',
      run_files paths folders functions w = (Raise e, w')
      /\ (e = SyntaxError \/ e = OSError)
      /\ ((forall f, In f paths -> w.(source_files) f <> None) ->
          e = SyntaxError).
Proof.
  induction paths as [|p rest IH];
    intros functions w file source_code Hin Hfile Hwant Hsrc Hparse;
    [destruct Hin|].
  rewrite index_files_cons.
  destruct (isfile w p && want_to_continue p (lists w folders)) eqn:Hsel.
  - cbv zeta. destruct (source_files w p) as [text|] eqn:Hp.
    + destruct (ast_parse text) as [parsed|] eqn:Hpp.
      * destruct Hin as [->|Hin]; [congruence|].
        destruct (IH (functions
                        ++ flat_map (node_records p)
                                    (walk parsed))
                     (snd (logger (InfoParsing p)
                                  (snd (logger (InfoReading p) w))))
                     file source_code Hin Hfile Hwant Hsrc Hparse)
          as (e & w' & E & He & Hall).
        exists e, w'; split; [exact E|]. split; [exact He|].
        intros Hr; apply Hall; intros f Hf; apply Hr; right; exact Hf.
      * eexists _, _; split; [reflexivity|]. split; [left; reflexivity|].
        reflexivity.
    + eexists _, _; split; [reflexivity|]. split; [right; reflexivity|].
      intros Hr; exfalso; apply (Hr p); [left; reflexivity|exact Hp].
  - destruct Hin as [->|Hin].
    + rewrite Hfile, Hwant in Hsel; discriminate.
    + destruct (IH functions w file source_code Hin Hfile Hwant Hsrc Hparse)
        as (e & w' & E & He & Hall).
      exists e, w'; split; [exact E|]. split; [exact He|].
      intros Hr; apply Hall; intros f Hf; apply Hr; right; exact Hf.
Qed.

Lemma index_folder_cached (base_folder : str) (folders : list_obj)
    (w : World) (cached : list FunctionType) :
  w.(json_output) = Some cached ->
  run_folder base_folder folders w
  = (Ok cached, snd (logger (WarningNotIndexing base_folder) w)).
Proof.
  intros H. unfold index_folder.
  unfold bind, logger, os_path_exists_JSON_OUTPUT, read_json_file, Ok.
  cbn [json_output]. rewrite H. reflexivity.
Qed.

Lemma index_folder_fresh (base_folder : str) (folders : list_obj)
    (w : World) :
  w.(json_output) = None ->
  run_folder base_folder folders w
  = match run_files (w.(iglob) (base_folder ++ $"/**")) folders []
                      (scan_start base_folder folders w) with
    | (inl e, w') => (inl e, w')
    | (inr functions, w') => (Ok functions, scan_end base_folder functions w')
    end.
Proof.
  intros H. unfold index_folder, scan_start, scan_end.
  unfold bind, logger, iadd, os_path_exists_JSON_OUTPUT, glob_iglob,
    save_json, ret, Ok.
  cbn [json_output iglob isfile source_files lists logged stdout snd].
  rewrite H.
  destruct (run_files _ _ _ _) as [[e|functions] w']; reflexivity.
Qed.
End IndexerFacts.

(** ** Claims about [index_folder] *)

(** C2. When the cache document exists, [index_folder] returns its
    content as it is.  The run logs its warning and does nothing else: no
    file is read or parsed, no list is extended, the document is not
    rewritten.  The result is the same for every base folder, every
    ignore list and every state of the directory tree. *)
Theorem index_folder_returns_cache ast_parse os_path_abspath
    (base_folder : str) (folders : list_obj) (w : World)
    (cached : list FunctionType) :
  w.(json_output) = Some cached ->
  fst (index_folder ast_parse os_path_abspath base_folder folders w) = Ok cached
  /\ only_logged w
       (snd (index_folder ast_parse os_path_abspath base_folder folders w))
  /\ logged (snd (index_folder ast_parse os_path_abspath base_folder folders w))
     = w.(logged) ++ [WarningNotIndexing base_folder]
  /\ forall ast_parse' os_path_abspath' base_folder' folders' w',
       w'.(json_output) = Some cached ->
       fst (index_folder ast_parse' os_path_abspath' base_folder' folders' w')
       = Ok cached.
Proof.
  intros H. rewrite index_folder_cached with (cached := cached) by exact H.
  split; [reflexivity|]. split; [apply only_logged_logger|].
  split; [reflexivity|].
  intros p a b f w' H'.
  rewrite index_folder_cached with (cached := cached) by exact H'.
  reflexivity.
Qed.

Lemma index_folder_returns_cache_witness :
  fst (index_folder (fun _ => None) (fun p => p) $"./stdlib" ObjDefaultIgnore
                    cached_world)
  = Ok [function_f].
Proof.
  exact (proj1 (index_folder_returns_cache (fun _ => None) (fun p => p)
                  $"./stdlib" ObjDefaultIgnore cached_world
                  (cached := [function_f]) eq_refl)).
Defined.

(** After a run that scanned and returned, every later run returns the
    same list as long as the document is left alone, whatever happened to
    the files. *)
Lemma index_folder_second_call ast_parse os_path_abspath
    (base_folder : str) (folders : list_obj) (w w1 : World)
    (functions : list FunctionType) :
  w.(json_output) = None ->
  index_folder ast_parse os_path_abspath base_folder folders w
  = (Ok functions, w1) ->
  forall ast_parse' os_path_abspath' base_folder' folders' w2,
    w2.(json_output) = w1.(json_output) ->
    fst (index_folder ast_parse' os_path_abspath' base_folder' folders' w2)
    = Ok functions.
Proof.
  intros H E p a b f w2 H2.
  rewrite index_folder_fresh in E by exact H.
  destruct (index_files _ _ _ _ _ _) as [[e|fs] w'] in E; [discriminate|].
  injection E as <- <-.
  rewrite index_folder_cached with (cached := fs); [reflexivity|].
  rewrite H2; reflexivity.
Qed.

Lemma list_obj_eqb_eq (a b : list_obj) : list_obj_eqb a b = true <-> a = b.
Proof.
  destruct a, b; simpl; split; try congruence; try reflexivity.
  - intros H; apply Nat.eqb_eq in H; congruence.
  - intros H; injection H as ->; apply Nat.eqb_refl.
Qed.

Lemma lists_scan_start (base_folder : str) (folders o : list_obj) (w : World) :
  lists (scan_start base_folder folders w) o
  = if list_obj_eqb o folders
    then w.(lists) folders ++ w.(lists) ObjStdlibIgnore
    else w.(lists) o.
Proof. reflexivity. Qed.

(** A run that finds no cache document leaves the list objects as they
    are when the scan starts, however the run ends. *)
Lemma lists_after_fresh_run ast_parse os_path_abspath
    (base_folder : str) (folders : list_obj) (w : World) :
  w.(json_output) = None ->
  lists (snd (index_folder ast_parse os_path_abspath base_folder folders w))
  = lists (scan_start base_folder folders w).
Proof.
  intros H. rewrite index_folder_fresh by exact H.
  pose proof (index_files_only_logged ast_parse os_path_abspath folders
                (iglob w (base_folder ++ $"/**")) []
                (scan_start base_folder folders w)) as Hl.
  destruct (index_files _ _ _ _ _ _) as [[e|fs] w'];
    destruct Hl as (_ & _ & _ & _ & Hl & _); exact Hl.
Qed.

(** C4. In a run that finds no cache document, a selected file whose text
    does not parse makes [index_folder] raise: the run ends with an error
    and returns no list, and there is still no cache document afterwards.
    The error is [SyntaxError], unless a file could not be read before the
    parser was reached. *)
Theorem index_folder_parse_error ast_parse os_path_abspath
    (base_folder : str) (folders : list_obj) (w : World)
    (file source_code : str) :
  w.(json_output) = None ->
  In file (w.(iglob) (base_folder ++ $"/**")) ->
  w.(isfile) file = true ->
  want_to_continue file (w.(lists) folders ++ w.(lists) ObjStdlibIgnore) = true ->
  w.(source_files) file = Some source_code ->
  ast_parse source_code = None ->
  exists e w',
    index_folder ast_parse os_path_abspath base_folder folders w = (Raise e, w')
    /\ (e = SyntaxError \/ e = OSError)
    /\ ((forall f, In f (w.(iglob) (base_folder ++ $"/**")) ->
                   w.(source_files) f <> None) -> e = SyntaxError)
    /\ w'.(json_output) = None.
Proof.
  intros Hc Hin Hfile Hwant Hsrc Hparse.
  assert (Hwant' : want_to_continue file
                     (lists (scan_start base_folder folders w) folders) = true).
  { rewrite lists_scan_start.
    rewrite (proj2 (list_obj_eqb_eq folders folders) eq_refl). exact Hwant. }
  destruct (index_files_parse_failure ast_parse os_path_abspath folders
              (iglob w (base_folder ++ $"/**")) []
              (scan_start base_folder folders w) file
              Hin Hfile Hwant' Hsrc Hparse)
    as (e & w' & E & He & Hall).
  pose proof (index_files_only_logged ast_parse os_path_abspath folders
                (iglob w (base_folder ++ $"/**")) []
                (scan_start base_folder folders w)) as Hl.
  rewrite index_folder_fresh by exact Hc. rewrite E in Hl |- *.
  exists e, w'; split; [reflexivity|]. split; [exact He|].
  split; [exact Hall|].
  destruct Hl as (Hj & _). simpl in Hj. rewrite Hj. exact Hc.
Qed.

Lemma index_folder_parse_error_witness :
  exists e w',
    index_folder toy_parse (fun p => p) $"pkg" ObjDefaultIgnore broken_world
    = (Raise e, w')
    /\ (e = SyntaxError \/ e = OSError)
    /\ ((forall f, In f (broken_world.(iglob) ($"pkg" ++ $"/**")) ->
                   broken_world.(source_files) f <> None) -> e = SyntaxError)
    /\ w'.(json_output) = None.
Proof.
  apply (@index_folder_parse_error toy_parse (fun p => p) $"pkg"
           ObjDefaultIgnore broken_world $"pkg/bad.py" $"def (").
  - reflexivity.
  - simpl; tauto.
  - reflexivity.
  - reflexivity.
  - reflexivity.
  - reflexivity.
Defined.

Example index_folder_broken_world :
  fst (index_folder toy_parse (fun p => p) $"pkg" ObjDefaultIgnore broken_world)
  = Raise SyntaxError.
Proof. vm_compute. reflexivity. Qed.

(** ** The selection of files *)

Lemma str_eqb_eq (a b : str) : str_eqb a b = true <-> a = b.
Proof.
  unfold str_eqb; destruct (list_eq_dec ascii_dec a b); split; congruence.
Qed.

Lemma sets_intersect_false (a b : list str) :
  sets_intersect a b = false <-> forall x, In x a -> ~ In x b.
Proof.
  unfold sets_intersect; split.
  - intros H x Ha Hb.
    assert (E : existsb (fun x => existsb (str_eqb x) b) a = true).
    { apply existsb_exists; exists x; split; [exact Ha|].
      apply existsb_exists; exists x; split; [exact Hb|].
      apply str_eqb_eq; reflexivity. }
    congruence.
  - intros H. destruct (existsb _ a) eqn:E; [|reflexivity].
    apply existsb_exists in E; destruct E as (x & Ha & E).
    apply existsb_exists in E; destruct E as (y & Hb & E).
    apply str_eqb_eq in E; subst y. exfalso; exact (H x Ha Hb).
Qed.

(** What the test of the loop selects: paths that end in the two
    characters [py] and have no segment in the ignore list. *)
Lemma want_to_continue_spec (file : str) (folders_to_ignore : list str) :
  want_to_continue file folders_to_ignore = true
  <-> endswith file $"py" = true
      /\ forall segment, In segment (split "/"%char file) ->
                         ~ In segment folders_to_ignore.
Proof.
  unfold want_to_continue. rewrite andb_true_iff, negb_true_iff.
  rewrite sets_intersect_false. reflexivity.
Qed.

(** C7, at the failing input.  The file [pkg/happy] does not end in
    [.py], and no segment of its path is ignored; the test of the loop
    accepts it, because it asks for the suffix [py] without the dot, and
    the run reads the file, parses it and indexes its function. *)
Theorem index_folder_selects_without_dot :
  endswith $"pkg/happy" $".py" = false
  /\ want_to_continue $"pkg/happy" ([] ++ STDLIB_IGNORE) = true
  /\ fst (index_folder toy_parse (fun p => p) $"pkg" ObjDefaultIgnore happy_world)
     = Ok [ {| name := $"joy"; args := []; filename := $"pkg/happy"; line := 1 |} ]
  /\ logged (snd (index_folder toy_parse (fun p => p) $"pkg" ObjDefaultIgnore
                               happy_world))
     = [ WarningNotIndexing $"pkg"; InfoReading $"pkg/happy";
         InfoParsing $"pkg/happy"; InfoSaving; InfoIndexed $"pkg" ].
Proof. repeat split; vm_compute; reflexivity. Qed.

(** ** The ignore list *)

(** A call that finds the cache document returns before the list is
    touched. *)
Lemma cached_call_keeps_default_list :
  ~ default_call_grows_list toy_parse (fun p => p) $"./stdlib" cached_world.
Proof.
  unfold default_call_grows_list. vm_compute. discriminate.
Qed.

Lemma concat_repeat_comm (A : Type) (x : list A) (n : nat) :
  concat (repeat x n) ++ x = x ++ concat (repeat x n).
Proof.
  induction n as [|n IH]; simpl; [rewrite app_nil_r; reflexivity|].
  rewrite <- app_assoc, IH; reflexivity.
Qed.

(** C10, amended.  A call that finds no cache document extends the list
    object it was given, in place, by the entries [STDLIB_IGNORE] holds at
    that moment, before it scans and however the run ends; no other list
    object changes.  The default value is one list object for all calls,
    so after [n] such calls without a second argument it holds [n] copies
    of the entries on top of what it held before. *)
Theorem index_folder_extends_ignore_list ast_parse os_path_abspath
    (base_folder : str) (w : World) :
  w.(json_output) = None ->
  (forall folders,
     let w' := snd (index_folder ast_parse os_path_abspath base_folder folders w) in
     lists w' folders = w.(lists) folders ++ w.(lists) ObjStdlibIgnore
     /\ forall o, o <> folders -> lists w' o = w.(lists) o)
  /\ (forall n,
        lists (default_calls ast_parse os_path_abspath n base_folder w)
              ObjDefaultIgnore
        = w.(lists) ObjDefaultIgnore
            ++ concat (repeat (w.(lists) ObjStdlibIgnore) n)).
Proof.
  intros Hc. split.
  - intros folders w'. unfold w'.
    rewrite lists_after_fresh_run by exact Hc. split.
    + rewrite lists_scan_start.
      rewrite (proj2 (list_obj_eqb_eq folders folders) eq_refl). reflexivity.
    + intros o Ho. rewrite lists_scan_start.
      destruct (list_obj_eqb o folders) eqn:E; [|reflexivity].
      apply list_obj_eqb_eq in E; contradiction.
  - intros n.
    assert (H : lists (default_calls ast_parse os_path_abspath n base_folder w)
                      ObjStdlibIgnore = w.(lists) ObjStdlibIgnore
                /\ lists (default_calls ast_parse os_path_abspath n base_folder w)
                         ObjDefaultIgnore
                   = w.(lists) ObjDefaultIgnore
                       ++ concat (repeat (w.(lists) ObjStdlibIgnore) n)).
    { induction n as [|n [IHs IHd]]; simpl default_calls.
      - split; [reflexivity|]. simpl; rewrite app_nil_r; reflexivity.
      - rewrite lists_after_fresh_run by reflexivity.
        rewrite !lists_scan_start. simpl list_obj_eqb. cbn iota.
        cbn [remove_json_output lists]. rewrite IHs, IHd. split; [reflexivity|].
        rewrite <- app_assoc. f_equal.
        simpl repeat. simpl concat. apply concat_repeat_comm. }
    exact (proj2 H).
Qed.

Lemma index_folder_extends_ignore_list_witness :
  lists (default_calls toy_parse (fun p => p) 3 $"pkg" broken_world)
        ObjDefaultIgnore
  = broken_world.(lists) ObjDefaultIgnore
      ++ concat (repeat (broken_world.(lists) ObjStdlibIgnore) 3).
Proof.
  exact (proj2 (@index_folder_extends_ignore_list toy_parse (fun p => p)
                  $"pkg" broken_world eq_refl) 3).
Defined.

Example default_list_after_two_calls :
  lists (default_calls toy_parse (fun p => p) 2 $"pkg" happy_world)
        ObjDefaultIgnore
  = [ $"test"; $"site-packages"; $"lib2to3";
      $"test"; $"site-packages"; $"lib2to3" ].
Proof. vm_compute. reflexivity. Qed.

(** * Further properties *)

(** ** Rendering a signature *)

Lemma fold_left_append_args (sep : str) (l : list str) (acc : str) :
  fold_left (fun acc a => acc ++ a ++ sep) l acc
  = acc ++ concat (map (fun a => a ++ sep) l).
Proof.
  revert acc; induction l as [|a l IH]; intros acc; simpl.
  - rewrite app_nil_r; reflexivity.
  - rewrite IH, <- !app_assoc; reflexivity.
Qed.

Lemma concat_with_sep (sep : str) (l : list str) :
  l <> [] -> concat (map (fun a => a ++ sep) l) = join sep l ++ sep.
Proof.
  induction l as [|a l IH]; intros Hne; [congruence|].
  destruct l as [|b l].
  - simpl; rewrite app_nil_r; reflexivity.
  - change (concat (map (fun a => a ++ sep) (a :: b :: l)))
      with ((a ++ sep) ++ concat (map (fun a => a ++ sep) (b :: l))).
    rewrite IH by discriminate.
    change (join sep (a :: b :: l)) with (a ++ sep ++ join sep (b :: l)).
    rewrite <- !app_assoc; reflexivity.
Qed.

Lemma get_signature_plain (f : FunctionType) :
  get_signature f false = f.(name) ++ $"(" ++ join $", " f.(args) ++ $")".
Proof.
  unfold get_signature. rewrite fold_left_append_args. cbn [app].
  destruct (args f) as [|a l] eqn:E; [reflexivity|].
  rewrite concat_with_sep by discriminate.
  rewrite length_app. change (List.length $", ") with 2.
  replace (List.length (join $", " (a :: l)) + 2 - 2)
    with (List.length (join $", " (a :: l)) + 0) by lia.
  rewrite firstn_app_2. cbn [firstn]. rewrite app_nil_r. reflexivity.
Qed.

(** X1. [get_signature] renders a record as its name, an opening
    parenthesis, the arguments separated by a comma and a space, and a
    closing parenthesis: cutting the last two characters removes exactly
    the separator after the last argument, and nothing when there is no
    argument.  With [file_infos] the same text follows [filename:line ]. *)
Theorem get_signature_join (f : FunctionType) :
  get_signature f false = f.(name) ++ $"(" ++ join $", " f.(args) ++ $")"
  /\ get_signature f true
     = f.(filename) ++ $":" ++ str_of_Z f.(line) ++ $" " ++ get_signature f false.
Proof. split; [apply get_signature_plain|reflexivity]. Qed.

Example get_signature_sample :
  get_signature {| name := $"open"; args := [$"file"; $"mode"];
                   filename := $"io.py"; line := 12 |} true
  = $"io.py:12 open(file, mode)".
Proof. reflexivity. Qed.

(** ** Splitting what was joined *)

Lemma split_app_sep (sep : ascii) (a b : str) :
  split sep (a ++ sep :: b) = split sep a ++ split sep b.
Proof.
  induction a as [|c a IH]; simpl.
  - rewrite Ascii.eqb_refl; reflexivity.
  - destruct (Ascii.eqb c sep); [rewrite IH; reflexivity|].
    rewrite IH. destruct (split sep a) as [|t ts] eqn:E.
    + exfalso; exact (split_nonempty _ _ E).
    + reflexivity.
Qed.

Lemma split_join (sep : ascii) (l : list str) :
  l <> [] -> Forall (fun t => ~ In sep t) l -> split sep (join [sep] l) = l.
Proof.
  induction l as [|t l IH]; intros Hne Hall; [congruence|].
  inversion Hall as [|? ? Ht Hl]; subst. destruct l as [|u l].
  - simpl; apply split_without_sep, Ht.
  - change (join [sep] (t :: u :: l)) with (t ++ sep :: join [sep] (u :: l)).
    rewrite (split_at_sep _ _ _ Ht), IH by (discriminate || assumption).
    reflexivity.
Qed.

Lemma join_without (c : ascii) (sep : str) (l : list str) :
  ~ In c sep -> Forall (fun t => ~ In c t) l -> ~ In c (join sep l).
Proof.
  intros Hs Hl H. apply join_chars in H. destruct H as [H|(t & Ht & Hc)].
  - exact (Hs H).
  - rewrite Forall_forall in Hl. exact (Hl t Ht Hc).
Qed.

Lemma canonical_name_of_tokens (tokens : list str) :
  Forall (fun t => t <> [] /\ ~ In " "%char t) tokens ->
  canonical_name (join $" " tokens) = join $"_" tokens.
Proof.
  intros Hall. unfold canonical_name. destruct tokens as [|t l]; [reflexivity|].
  change $" " with [" "%char]. rewrite split_join.
  - f_equal. apply forallb_filter_id. apply forallb_forall.
    intros x Hx. rewrite Forall_forall in Hall. destruct (Hall x Hx) as [Hne _].
    destruct (str_eqb x []) eqn:E; [|reflexivity].
    apply str_eqb_nil in E; contradiction.
  - discriminate.
  - eapply Forall_impl; [|exact Hall]. intros x [_ Hx]; exact Hx.
Qed.

(** ** What [normalize] makes of a signature *)

Lemma canonical_args_of_list (xs : list str) :
  Forall (fun x => ~ In ","%char x /\ ~ In ")"%char x) xs ->
  canonical_args (join $"," xs ++ $")") = join $", " (map strip xs).
Proof.
  intros Hall. unfold canonical_args.
  assert (Hp : ~ In ")"%char (join $"," xs)).
  { apply join_without.
    - simpl; intros [H|[]]; discriminate.
    - eapply Forall_impl; [|exact Hall]. intros x [_ H]; exact H. }
  rewrite replace_app, (replace_without_old _ _ Hp).
  change (replace ")"%char [] $")") with (@nil ascii). rewrite app_nil_r.
  destruct xs as [|x xs]; [reflexivity|].
  change $"," with [","%char]. rewrite split_join.
  - reflexivity.
  - discriminate.
  - eapply Forall_impl; [|exact Hall]. intros y [H _]; exact H.
Qed.

(** X2. A name written as words separated by single spaces, followed by
    a parenthesised list of arguments separated by commas, is normalised
    to the words joined by underscores, [ ( ], the arguments stripped of
    surrounding white space and joined by a comma and a space, and [ )]. *)
Theorem normalize_renders (words xs : list str) :
  Forall (fun t => t <> [] /\ ~ In " "%char t /\ ~ In "("%char t) words ->
  Forall (fun x => ~ In ","%char x /\ ~ In ")"%char x /\ ~ In "("%char x) xs ->
  normalize (join $" " words ++ $"(" ++ join $"," xs ++ $")")
  = Ok (join $"_" words ++ $" ( " ++ join $", " (map strip xs) ++ $" )").
Proof.
  intros Hw Hx.
  assert (Hn : ~ In "("%char (join $" " words)).
  { apply join_without.
    - simpl; intros [H|[]]; discriminate.
    - eapply Forall_impl; [|exact Hw]. intros t (_ & _ & H); exact H. }
  assert (Ha : ~ In "("%char (join $"," xs ++ $")")).
  { intros H; apply in_app_or in H; destruct H as [H|H].
    - revert H. apply join_without.
      + simpl; intros [H|[]]; discriminate.
      + eapply Forall_impl; [|exact Hx]. intros t (_ & _ & H); exact H.
    - simpl in H; destruct H as [H|[]]; discriminate. }
  assert (E : split "("%char (join $" " words ++ $"(" ++ join $"," xs ++ $")")
              = [join $" " words; join $"," xs ++ $")"]).
  { change (join $" " words ++ $"(" ++ join $"," xs ++ $")")
      with (join $" " words ++ "("%char :: (join $"," xs ++ $")")).
    rewrite (split_at_sep _ _ _ Hn), (split_without_sep _ _ Ha). reflexivity. }
  rewrite (normalize_fields _ E).
  rewrite canonical_name_of_tokens, canonical_args_of_list.
  - reflexivity.
  - eapply Forall_impl; [|exact Hx]. intros t (H1 & H2 & _); split; assumption.
  - eapply Forall_impl; [|exact Hw]. intros t (H1 & H2 & _); split; assumption.
Qed.

Lemma normalize_renders_witness :
  normalize (join $" " [$"is"; $"zipfile"] ++ $"("
               ++ join $"," [$" filename"; $"mode  "] ++ $")")
  = Ok (join $"_" [$"is"; $"zipfile"] ++ $" ( "
          ++ join $", " (map strip [$" filename"; $"mode  "]) ++ $" )").
Proof.
  apply normalize_renders.
  - repeat constructor; simpl; intuition discriminate.
  - repeat constructor; simpl; intuition discriminate.
Defined.

Lemma canonical_name_app_space (a b : str) :
  canonical_name (a ++ " "%char :: b)
  = join $"_" (filter (fun a => negb (str_eqb a [])) (split " "%char a)
               ++ filter (fun a => negb (str_eqb a [])) (split " "%char b)).
Proof. unfold canonical_name. rewrite split_app_sep, filter_app. reflexivity. Qed.

Lemma normalize_same_name (a a' r : str) :
  ~ In "("%char a -> ~ In "("%char a' ->
  canonical_name a = canonical_name a' ->
  normalize (a ++ "("%char :: r) = normalize (a' ++ "("%char :: r).
Proof.
  intros Ha Ha' E.
  destruct (split "("%char r) as [|b rest] eqn:Er;
    [exfalso; exact (split_nonempty _ _ Er)|].
  rewrite (@normalize_fields (a ++ "("%char :: r) a b rest).
  2: { rewrite (split_at_sep _ _ _ Ha), Er; reflexivity. }
  rewrite (@normalize_fields (a' ++ "("%char :: r) a' b rest).
  2: { rewrite (split_at_sep _ _ _ Ha'), Er; reflexivity. }
  rewrite E; reflexivity.
Qed.

(** X3. The number of spaces in the name part does not matter: a second
    space next to a space, a space in front of the name and a space
    between the name and the parenthesis all leave the result of
    [normalize] as it is. *)
Theorem normalize_name_spaces (a b r : str) :
  ~ In "("%char a -> ~ In "("%char b ->
  normalize (a ++ $"  " ++ b ++ $"(" ++ r) = normalize (a ++ $" " ++ b ++ $"(" ++ r)
  /\ normalize ($" " ++ a ++ $"(" ++ r) = normalize (a ++ $"(" ++ r)
  /\ normalize (a ++ $" " ++ $"(" ++ r) = normalize (a ++ $"(" ++ r).
Proof.
  intros Ha Hb.
  assert (Hsp : forall x y, ~ In "("%char x -> ~ In "("%char y ->
                            ~ In "("%char (x ++ " "%char :: y)).
  { intros x y Hx Hy H; apply in_app_or in H.
    destruct H as [H|[H|H]]; [auto|discriminate|auto]. }
  split; [|split].
  - replace (a ++ $"  " ++ b ++ $"(" ++ r)
      with ((a ++ " "%char :: (" "%char :: b)) ++ "("%char :: r)
      by (rewrite <- app_assoc; reflexivity).
    replace (a ++ $" " ++ b ++ $"(" ++ r)
      with ((a ++ " "%char :: b) ++ "("%char :: r)
      by (rewrite <- app_assoc; reflexivity).
    apply normalize_same_name.
    + apply Hsp; [exact Ha|]. intros [H|H]; [discriminate|auto].
    + apply Hsp; assumption.
    + rewrite !canonical_name_app_space.
      change (" "%char :: b) with ([] ++ " "%char :: b).
      rewrite split_app_sep. reflexivity.
  - change ($" " ++ a ++ $"(" ++ r) with (([] ++ " "%char :: a) ++ "("%char :: r).
    change (a ++ $"(" ++ r) with (a ++ "("%char :: r).
    apply normalize_same_name.
    + apply Hsp; [intros []|exact Ha].
    + exact Ha.
    + rewrite canonical_name_app_space. reflexivity.
  - replace (a ++ $" " ++ $"(" ++ r) with ((a ++ " "%char :: []) ++ "("%char :: r)
      by (rewrite <- app_assoc; reflexivity).
    change (a ++ $"(" ++ r) with (a ++ "("%char :: r).
    apply normalize_same_name.
    + apply Hsp; [exact Ha|intros []].
    + exact Ha.
    + rewrite canonical_name_app_space. simpl. rewrite app_nil_r. reflexivity.
Qed.

Lemma normalize_name_spaces_witness :
  normalize ($"is" ++ $"  " ++ $"zipfile" ++ $"(" ++ $"filename)")
  = normalize ($"is" ++ $" " ++ $"zipfile" ++ $"(" ++ $"filename)").
Proof.
  refine (proj1 (@normalize_name_spaces $"is" $"zipfile" $"filename)" _ _));
    simpl; intuition discriminate.
Defined.

(** X4. Only the text between the first and the second opening
    parenthesis is read as arguments: whatever follows a second opening
    parenthesis is dropped without an error. *)
Theorem normalize_second_paren (a b c : str) :
  ~ In "("%char a -> ~ In "("%char b ->
  normalize (a ++ $"(" ++ b ++ $"(" ++ c) = normalize (a ++ $"(" ++ b).
Proof.
  intros Ha Hb.
  destruct (split "("%char c) as [|c1 rest] eqn:Ec;
    [exfalso; exact (split_nonempty _ _ Ec)|].
  rewrite (@normalize_fields (a ++ $"(" ++ b ++ $"(" ++ c) a b (c1 :: rest)).
  2: { change (a ++ $"(" ++ b ++ $"(" ++ c)
         with (a ++ "("%char :: (b ++ "("%char :: c)).
       rewrite (split_at_sep _ _ _ Ha), (split_at_sep _ _ _ Hb), Ec.
       reflexivity. }
  rewrite (@normalize_fields (a ++ $"(" ++ b) a b []).
  2: { change (a ++ $"(" ++ b) with (a ++ "("%char :: b).
       rewrite (split_at_sep _ _ _ Ha), (split_without_sep _ _ Hb).
       reflexivity. }
  reflexivity.
Qed.

Lemma normalize_second_paren_witness :
  normalize ($"f" ++ $"(" ++ $"g" ++ $"(" ++ $"x))") = normalize ($"f" ++ $"(" ++ $"g").
Proof.
  apply normalize_second_paren; simpl; intuition discriminate.
Defined.

Example normalize_nested_call : normalize $"f(g(x), y)" = Ok $"f ( g )".
Proof. reflexivity. Qed.

(** ** The signature a record is ranked by *)

Lemma split_comma_space_join (p t : str) (ts : list str) :
  ~ In ","%char p ->
  Forall (fun t => ~ In ","%char t) (t :: ts) ->
  map strip (split ","%char (p ++ join $", " (t :: ts)))
  = strip (p ++ t) :: map strip ts.
Proof.
  revert p t; induction ts as [|u ts IH]; intros p t Hp Hall;
    inversion Hall as [|? ? Ht Hts]; subst.
  - simpl join. rewrite split_without_sep; [reflexivity|].
    intros H; apply in_app_or in H; destruct H; auto.
  - change (join $", " (t :: u :: ts))
      with (t ++ ","%char :: ([" "%char] ++ join $", " (u :: ts))).
    rewrite app_assoc, split_at_sep.
    + cbn [map]. f_equal. rewrite IH.
      * change ([" "%char] ++ u) with (" "%char :: u).
        rewrite strip_cons_space by reflexivity. reflexivity.
      * simpl; intros [H|[]]; discriminate.
      * exact Hts.
    + intros H; apply in_app_or in H; destruct H; auto.
Qed.

(** X5. For a record whose name has no space and no parenthesis, and
    whose arguments have no comma, no parenthesis and no white space at
    either end (as the names of a parsed function have), the string that
    [sort] compares the query with is the name, [ ( ], the arguments
    joined by a comma and a space, and [ )]. *)
Theorem normalize_get_signature (f : FunctionType) :
  ~ In " "%char f.(name) -> ~ In "("%char f.(name) ->
  Forall (fun a => strip a = a /\ ~ In ","%char a
                   /\ ~ In "("%char a /\ ~ In ")"%char a) f.(args) ->
  normalize (get_signature f false)
  = Ok (f.(name) ++ $" ( " ++ join $", " f.(args) ++ $" )").
Proof.
  intros Hsp Hpar Hargs. rewrite get_signature_plain.
  assert (Hj : forall c, c <> ","%char -> c <> " "%char ->
                         Forall (fun a => ~ In c a) f.(args) ->
                         ~ In c (join $", " f.(args))).
  { intros c H1 H2 Hall. apply join_without; [|exact Hall].
    simpl; intros [H|[H|[]]]; congruence. }
  assert (Ha : ~ In "("%char (join $", " f.(args) ++ $")")).
  { intros H; apply in_app_or in H; destruct H as [H|H].
    - revert H; apply Hj; try discriminate.
      eapply Forall_impl; [|exact Hargs]. intros a (_ & _ & H & _); exact H.
    - simpl in H; destruct H as [H|[]]; discriminate. }
  rewrite (@normalize_fields _ f.(name) (join $", " f.(args) ++ $")") []).
  2: { change (f.(name) ++ $"(" ++ join $", " f.(args) ++ $")")
         with (f.(name) ++ "("%char :: (join $", " f.(args) ++ $")")).
       rewrite (split_at_sep _ _ _ Hpar), (split_without_sep _ _ Ha).
       reflexivity. }
  f_equal. f_equal.
  - unfold canonical_name. rewrite (split_without_sep _ _ Hsp). simpl.
    destruct (str_eqb (name f) []) eqn:E; simpl; [|reflexivity].
    apply str_eqb_nil in E; symmetry; exact E.
  - f_equal. f_equal. unfold canonical_args.
    rewrite replace_app, replace_without_old.
    2: { apply Hj; try discriminate.
         eapply Forall_impl; [|exact Hargs].
         intros a (_ & _ & _ & H); exact H. }
    change (replace ")"%char [] $")") with (@nil ascii). rewrite app_nil_r.
    change (fun a : str => rstrip (lstrip a)) with strip.
    destruct (args f) as [|t ts] eqn:Eargs; [reflexivity|].
    change (join $", " (t :: ts)) with ([] ++ join $", " (t :: ts)) at 1.
    rewrite split_comma_space_join.
    + f_equal. change (strip ([] ++ t) :: map strip ts)
        with (map strip (t :: ts)).
      transitivity (map (fun x : str => x) (t :: ts)); [|apply map_id].
      apply map_ext_in.
      intros a Ha'. rewrite Forall_forall in Hargs.
      destruct (Hargs a Ha') as [H _]; exact H.
    + intros [].
    + eapply Forall_impl; [|exact Hargs]. intros a (_ & H & _); exact H.
Qed.

Lemma normalize_get_signature_witness :
  normalize (get_signature {| name := $"open"; args := [$"file"; $"mode"];
                              filename := $"io.py"; line := 12 |} false)
  = Ok ($"open" ++ $" ( " ++ join $", " [$"file"; $"mode"] ++ $" )").
Proof.
  apply (@normalize_get_signature
           {| name := $"open"; args := [$"file"; $"mode"];
              filename := $"io.py"; line := 12 |}).
  - simpl; intuition discriminate.
  - simpl; intuition discriminate.
  - repeat constructor; simpl; intuition discriminate.
Defined.

(** ** The nodes the walk yields *)

Lemma walk_loop_sound (fuel : nat) :
  forall todo d, In d (walk_loop fuel todo) ->
                 exists n, In n todo /\ descendant d n.
Proof.
  induction fuel as [|fuel IH]; intros todo d H; [destruct H|].
  destruct todo as [|m rest]; [destruct H|]. simpl in H.
  destruct H as [<-|H].
  - exists m; split; [left; reflexivity|apply desc_self].
  - destruct (IH _ _ H) as (n & Hn & Hd).
    apply in_app_or in Hn; destruct Hn as [Hn|Hn].
    + exists n; split; [right; exact Hn|exact Hd].
    + exists m; split; [left; reflexivity|].
      eapply desc_child; [exact Hn|exact Hd].
Qed.

Lemma walk_loop_length (fuel : nat) :
  forall todo, forest_size todo <= fuel ->
               List.length (walk_loop fuel todo) = forest_size todo.
Proof.
  induction fuel as [|fuel IH]; intros todo Hsize.
  - destruct todo as [|m rest]; [reflexivity|].
    unfold forest_size in Hsize; simpl in Hsize.
    rewrite node_size_children in Hsize; lia.
  - destruct todo as [|m rest]; [reflexivity|].
    assert (Hs : forest_size (m :: rest)
                 = S (forest_size (rest ++ iter_child_nodes m))).
    { rewrite forest_size_app. unfold forest_size at 1. simpl.
      rewrite node_size_children. unfold forest_size. lia. }
    simpl walk_loop. simpl List.length. rewrite IH; lia.
Qed.

(** [walk] yields the nodes of the tree and no others, the root first,
    and as many nodes as the tree has: the fuel the model gives the loop
    is enough for every tree and no node is yielded twice. *)
Lemma walk_visits_tree (parsed : node) :
  (forall d, In d (walk parsed) <-> descendant d parsed)
  /\ List.length (walk parsed) = node_size parsed
  /\ hd_error (walk parsed) = Some parsed.
Proof.
  split; [|split].
  - intros d; split; [|apply walk_complete].
    intros H. destruct (walk_loop_sound _ _ _ H) as (n & [<-|[]] & Hd). exact Hd.
  - unfold walk. rewrite walk_loop_length; unfold forest_size; simpl; lia.
  - unfold walk. rewrite node_size_children. reflexivity.
Qed.

(** X6. The extractor invents nothing: every record it returns for a
    tree comes from a function definition found in that tree, with the
    name, the parameter names in their order and the line of that
    definition, and with the path it was given as file name. *)
Theorem extractor_records_sound os_path_abspath (parsed : node) (file : str)
    (functions : list FunctionType) :
  index_nodes os_path_abspath (walk parsed) file [] = Ok functions ->
  forall f, In f functions ->
    f.(filename) = file
    /\ exists children,
         descendant (FunctionDef f.(name) f.(args) f.(line) children) parsed.
Proof.
  intros E f Hf. rewrite index_nodes_records in E.
  injection E as <-. cbn [app] in Hf.
  apply in_flat_map in Hf. destruct Hf as (n & Hn & Hf).
  destruct (walk_loop_sound _ _ _ Hn) as (m & [<-|[]] & Hd).
  destruct n as [nm a l ch|ch]; unfold node_records in Hf; [|destruct Hf].
  destruct (negb (startswith nm $"__")); [|destruct Hf].
  destruct Hf as [<-|[]]. cbn [filename name args line].
  split; [reflexivity|]. exists ch; exact Hd.
Qed.

Lemma extractor_records_sound_witness :
  exists children,
    descendant (FunctionDef $"top" [$"a"; $"b"; $"c"] 8 children) sample_module.
Proof.
  refine (proj2 (@extractor_records_sound (fun p => p) sample_module $"m.py"
                   _ eq_refl
                   {| name := $"top"; args := [$"a"; $"b"; $"c"];
                      filename := $"m.py"; line := 8 |} _)).
  left; reflexivity.
Defined.

(** ** The result of a run that scans *)

Section ScanFacts.
Variable ast_parse : str -> option node.
Variable os_path_abspath : str -> str.

(** The loop returns the records of the paths in order, after the ones
    it started with; it raises nothing but what reading and parsing
    raise. *)
Lemma index_files_result (folders : list_obj) (paths : list str) :
  forall acc w,
    match fst (index_files ast_parse os_path_abspath paths folders acc w) with
    | inr functions =>
        functions
        = acc ++ flat_map (file_functions ast_parse w (w.(lists) folders)) paths
    | inl e => e = SyntaxError \/ e = OSError
    end.
Proof.
  induction paths as [|file rest IH]; intros acc w.
  - simpl. rewrite app_nil_r; reflexivity.
  - rewrite index_files_cons. cbn [flat_map]. unfold file_functions at 1.
    destruct (isfile w file && want_to_continue file (lists w folders)).
    + cbv zeta. destruct (source_files w file) as [source_code|].
      * destruct (ast_parse source_code) as [parsed|].
        -- specialize (IH (acc ++ flat_map (node_records file) (walk parsed))
                           (snd (logger (InfoParsing file)
                                        (snd (logger (InfoReading file) w))))).
           destruct (fst (index_files _ _ _ _ _ _)) as [e|fs]; [exact IH|].
           rewrite IH, <- app_assoc. reflexivity.
        -- left; reflexivity.
      * right; reflexivity.
    + apply IH.
Qed.

Lemma index_files_total (folders : list_obj) (paths : list str) :
  forall acc w,
    (forall file, In file paths -> w.(isfile) file = true ->
                  want_to_continue file (w.(lists) folders) = true ->
                  exists source_code parsed,
                    w.(source_files) file = Some source_code
                    /\ ast_parse source_code = Some parsed) ->
    exists functions,
      fst (index_files ast_parse os_path_abspath paths folders acc w)
      = Ok functions.
Proof.
  induction paths as [|file rest IH]; intros acc w Hall.
  - eexists; reflexivity.
  - rewrite index_files_cons.
    destruct (isfile w file && want_to_continue file (lists w folders)) eqn:Hsel.
    + apply andb_true_iff in Hsel; destruct Hsel as [Hf Hw].
      destruct (Hall file (or_introl eq_refl) Hf Hw) as (text & parsed & Hs & Hp).
      cbv zeta. rewrite Hs, Hp. apply IH.
      intros f Hin. apply (Hall f). right; exact Hin.
    + apply IH. intros f Hin. apply (Hall f). right; exact Hin.
Qed.
End ScanFacts.

Lemma fresh_run_fst ast_parse os_path_abspath (base_folder : str)
    (folders : list_obj) (w : World) :
  w.(json_output) = None ->
  fst (index_folder ast_parse os_path_abspath base_folder folders w)
  = fst (index_files ast_parse os_path_abspath
                     (w.(iglob) (base_folder ++ $"/**")) folders []
                     (scan_start base_folder folders w)).
Proof.
  intros H. rewrite index_folder_fresh by exact H.
  destruct (index_files _ _ _ _ _ _) as [[e|fs] w']; reflexivity.
Qed.

Lemma fresh_run_functions ast_parse os_path_abspath (base_folder : str)
    (folders : list_obj) (w : World) (functions : list FunctionType) :
  w.(json_output) = None ->
  fst (index_folder ast_parse os_path_abspath base_folder folders w)
  = Ok functions ->
  functions
  = flat_map (file_functions ast_parse w
                (w.(lists) folders ++ w.(lists) ObjStdlibIgnore))
             (w.(iglob) (base_folder ++ $"/**")).
Proof.
  intros Hc E. rewrite fresh_run_fst in E by exact Hc.
  pose proof (index_files_result ast_parse os_path_abspath folders
                (iglob w (base_folder ++ $"/**")) []
                (scan_start base_folder folders w)) as Hr.
  rewrite E in Hr. rewrite Hr. cbn [app].
  rewrite lists_scan_start.
  rewrite (proj2 (list_obj_eqb_eq folders folders) eq_refl). reflexivity.
Qed.

(** X7. In a run that finds no cache document, when every selected file
    can be read and parsed, [index_folder] returns the records of the
    selected files in the order the paths are enumerated, each file's
    records in the order of the tree walk, and leaves exactly this list
    as the cache document. *)
Theorem index_folder_fresh_result ast_parse os_path_abspath
    (base_folder : str) (folders : list_obj) (w : World) :
  w.(json_output) = None ->
  (forall file,
     In file (w.(iglob) (base_folder ++ $"/**")) ->
     w.(isfile) file = true ->
     want_to_continue file (w.(lists) folders ++ w.(lists) ObjStdlibIgnore)
     = true ->
     exists source_code parsed,
       w.(source_files) file = Some source_code
       /\ ast_parse source_code = Some parsed) ->
  let functions :=
    flat_map (file_functions ast_parse w
                (w.(lists) folders ++ w.(lists) ObjStdlibIgnore))
             (w.(iglob) (base_folder ++ $"/**")) in
  fst (index_folder ast_parse os_path_abspath base_folder folders w)
  = Ok functions
  /\ json_output (snd (index_folder ast_parse os_path_abspath base_folder
                                    folders w))
     = Some functions.
Proof.
  intros Hc Hall functions.
  assert (Hall' : forall file,
             In file (iglob w (base_folder ++ $"/**")) ->
             isfile (scan_start base_folder folders w) file = true ->
             want_to_continue file
               (lists (scan_start base_folder folders w) folders) = true ->
             exists source_code parsed,
               source_files (scan_start base_folder folders w) file
               = Some source_code
               /\ ast_parse source_code = Some parsed).
  { intros file Hin Hf Hw. rewrite lists_scan_start in Hw.
    rewrite (proj2 (list_obj_eqb_eq folders folders) eq_refl) in Hw.
    exact (Hall file Hin Hf Hw). }
  destruct (index_files_total ast_parse os_path_abspath folders
              (iglob w (base_folder ++ $"/**")) []
              (scan_start base_folder folders w) Hall') as (fs & E).
  assert (Ef : fst (index_folder ast_parse os_path_abspath base_folder folders w)
               = Ok fs).
  { rewrite fresh_run_fst by exact Hc. exact E. }
  pose proof (fresh_run_functions _ _ _ _ _ Hc Ef) as Hfs.
  fold functions in Hfs. subst fs. split; [exact Ef|].
  rewrite index_folder_fresh in Ef |- * by exact Hc.
  destruct (index_files _ _ _ _ _ _) as [[e|fs] w']; [discriminate|].
  simpl in Ef. injection Ef as ->. reflexivity.
Qed.

Lemma index_folder_fresh_result_witness :
  fst (index_folder toy_parse (fun p => p) $"pkg" ObjDefaultIgnore happy_world)
  = Ok (flat_map (file_functions toy_parse happy_world
                    (happy_world.(lists) ObjDefaultIgnore
                       ++ happy_world.(lists) ObjStdlibIgnore))
                 (happy_world.(iglob) ($"pkg" ++ $"/**"))).
Proof.
  refine (proj1 (@index_folder_fresh_result toy_parse (fun p => p) $"pkg"
                   ObjDefaultIgnore happy_world eq_refl _)).
  intros file [<-|[<-|[]]] Hf Hw; [discriminate Hf|].
  exists $"def joy(): pass", (OtherNode [FunctionDef $"joy" [] 1 [OtherNode []]]).
  split; reflexivity.
Defined.



(** X9. Every record a scanning run returns carries as file name a path
    of the enumeration that is a regular file, ends in [py] and has no
    ignored segment, and has a name that does not start with two
    underscores. *)
Theorem index_folder_records_origin ast_parse os_path_abspath
    (base_folder : str) (folders : list_obj) (w : World)
    (functions : list FunctionType) :
  w.(json_output) = None ->
  fst (index_folder ast_parse os_path_abspath base_folder folders w)
  = Ok functions ->
  forall f, In f functions ->
    In f.(filename) (w.(iglob) (base_folder ++ $"/**"))
    /\ w.(isfile) f.(filename) = true
    /\ endswith f.(filename) $"py" = true
    /\ (forall segment, In segment (split "/"%char f.(filename)) ->
          ~ In segment (w.(lists) folders ++ w.(lists) ObjStdlibIgnore))
    /\ startswith f.(name) $"__" = false.
Proof.
  intros Hc E f Hf.
  rewrite (fresh_run_functions _ _ _ _ _ Hc E) in Hf.
  apply in_flat_map in Hf. destruct Hf as (file & Hin & Hf).
  unfold file_functions in Hf.
  destruct (isfile w file) eqn:Hfile; [|destruct Hf].
  destruct (want_to_continue file _) eqn:Hw; [|destruct Hf].
  cbn [andb] in Hf.
  destruct (source_files w file) as [text|]; [|destruct Hf].
  destruct (ast_parse text) as [parsed|]; [|destruct Hf].
  apply in_flat_map in Hf. destruct Hf as (n & _ & Hf).
  destruct n as [nm a l ch|ch]; unfold node_records in Hf; [|destruct Hf].
  destruct (startswith nm $"__") eqn:Hs; cbn [negb] in Hf; [destruct Hf|].
  destruct Hf as [<-|[]]. cbn [filename name].
  apply want_to_continue_spec in Hw. destruct Hw as [Hpy Hseg].
  repeat split; assumption.
Qed.

Lemma index_folder_records_origin_witness :
  endswith $"pkg/happy" $"py" = true.
Proof.
  refine (proj1 (proj2 (proj2
            (@index_folder_records_origin toy_parse (fun p => p) $"pkg"
               ObjDefaultIgnore happy_world
               [ {| name := $"joy"; args := []; filename := $"pkg/happy";
                    line := 1 |} ]
               eq_refl _
               {| name := $"joy"; args := []; filename := $"pkg/happy";
                  line := 1 |} _)))).
  - vm_compute. reflexivity.
  - left; reflexivity.
Defined.

(** X10. The list a scanning run returns is the list every later run
    returns, for any base folder and ignore list and whatever has become
    of the files, as long as the cache document it wrote is in place. *)
Theorem index_folder_cache_round_trip ast_parse os_path_abspath
    (base_folder : str) (folders : list_obj) (w : World)
    (functions : list FunctionType) :
  w.(json_output) = None ->
  fst (index_folder ast_parse os_path_abspath base_folder folders w)
  = Ok functions ->
  forall ast_parse' os_path_abspath' base_folder' folders' w2,
    w2.(json_output)
    = json_output (snd (index_folder ast_parse os_path_abspath base_folder
                                     folders w)) ->
    index_folder ast_parse' os_path_abspath' base_folder' folders' w2
    = (Ok functions, snd (logger (WarningNotIndexing base_folder') w2)).
Proof.
  intros Hc E p a b f w2 H2.
  apply index_folder_cached. rewrite H2.
  rewrite index_folder_fresh in E |- * by exact Hc.
  destruct (index_files _ _ _ _ _ _) as [[e|fs] w']; [discriminate|].
  simpl in E. injection E as ->. reflexivity.
Qed.

Lemma index_folder_cache_round_trip_witness :
  index_folder (fun _ => None) (fun p => p) $"elsewhere" (ObjCaller 0)
    (snd (index_folder toy_parse (fun p => p) $"pkg" ObjDefaultIgnore
                       happy_world))
  = (Ok [ {| name := $"joy"; args := []; filename := $"pkg/happy";
             line := 1 |} ],
     snd (logger (WarningNotIndexing $"elsewhere")
            (snd (index_folder toy_parse (fun p => p) $"pkg" ObjDefaultIgnore
                               happy_world)))).
Proof.
  apply (@index_folder_cache_round_trip toy_parse (fun p => p) $"pkg"
           ObjDefaultIgnore happy_world).
  - reflexivity.
  - vm_compute. reflexivity.
  - reflexivity.
Defined.

(** ** What the script prints *)

Lemma skipn_nth_error (A : Type) (l : list A) (i : nat) (x : A) :
  nth_error l i = Some x -> skipn i l = x :: skipn (S i) l.
Proof.
  revert i; induction l as [|y l IH]; intros [|i] H; simpl in H;
    try discriminate.
  - injection H as ->; reflexivity.
  - apply IH in H. exact H.
Qed.

Lemma print_results_spec (functions : list RankedResult) (count : nat) :
  forall i w,
    i <= List.length functions ->
    let run := print_results functions i count w in
    fst run
    = (if i + count <=? List.length functions then Ok tt else Raise IndexError)
    /\ stdout (snd run)
       = w.(stdout) ++ printed_lines (firstn count (skipn i functions)).
Proof.
  induction count as [|count IH]; intros i w Hi run; unfold run.
  - simpl. rewrite app_nil_r. split; [|reflexivity].
    destruct (Nat.leb_spec (i + 0) (List.length functions)); [reflexivity|lia].
  - cbn [print_results].
    destruct (nth_error functions i) as [r|] eqn:E.
    + assert (Hlt : i < List.length functions).
      { apply nth_error_Some. rewrite E; discriminate. }
      cbv beta iota delta [bind print Ok].
      specialize (IH (S i)
                     (mkWorld w.(json_output) w.(iglob) w.(isfile)
                              w.(source_files) w.(lists) w.(logged)
                              (w.(stdout) ++ [get_signature (snd r) true]))
                     Hlt).
      cbv zeta in IH. destruct IH as [IH1 IH2]. split.
      * rewrite IH1. rewrite Nat.add_succ_r. reflexivity.
      * rewrite IH2. cbn [stdout]. rewrite (skipn_nth_error _ _ E).
        cbn [firstn]. unfold printed_lines. cbn [map].
        rewrite <- app_assoc. reflexivity.
    + apply nth_error_None in E.
      assert (i = List.length functions) by lia. subst i. split.
      * destruct (Nat.leb_spec (List.length functions + S count)
                               (List.length functions)); [lia|reflexivity].
      * rewrite skipn_all. rewrite firstn_nil. cbn [raise snd].
        unfold printed_lines; simpl. rewrite app_nil_r. reflexivity.
Qed.

(** X11. Once the raw query is normalised and the indexer has returned
    its list, the script prints the first ten results of [sort], each as
    [filename:line name(args)], after what was printed before.  With
    fewer than ten functions it prints them all and then stops with
    [IndexError]. *)
Theorem main_with_prints ast_parse os_path_abspath
    (raw_query query base_folder : str) (w w1 : World)
    (indexed : list FunctionType) :
  normalize raw_query = Ok query ->
  index_folder ast_parse os_path_abspath base_folder ObjDefaultIgnore w
  = (Ok indexed, w1) ->
  exists functions,
    sort query indexed = Ok functions
    /\ fst (main_with ast_parse os_path_abspath raw_query base_folder w)
       = (if 10 <=? List.length indexed then Ok tt else Raise IndexError)
    /\ stdout (snd (main_with ast_parse os_path_abspath raw_query base_folder w))
       = w1.(stdout) ++ printed_lines (firstn 10 functions).
Proof.
  intros Hq Hi. eexists; split; [apply sort_eq|].
  set (functions := sorted (fun x : RankedResult => fst x)
                           (map (fun f => (signature_score query f, f)) indexed)).
  assert (Hlen : List.length functions = List.length indexed).
  { unfold functions.
    rewrite (Permutation_length (sorted_perm (fun x : RankedResult => fst x) _)).
    apply length_map. }
  assert (Em : main_with ast_parse os_path_abspath raw_query base_folder w
               = print_results functions 0 10 w1).
  { unfold main_with, bind, lift. rewrite Hq. unfold Ok at 1.
    rewrite Hi. unfold Ok at 1. rewrite sort_eq. reflexivity. }
  rewrite Em.
  destruct (@print_results_spec functions 10 0 w1 (Nat.le_0_l _)) as [H1 H2].
  cbv zeta in H1, H2. rewrite H1, H2, Hlen. split; reflexivity.
Qed.

Lemma main_with_prints_witness :
  exists functions,
    sort $"f (  )" [function_f] = Ok functions
    /\ fst (main_with toy_parse (fun p => p) $"f()" $"./stdlib" cached_world)
       = (if 10 <=? List.length [function_f] then Ok tt else Raise IndexError)
    /\ stdout (snd (main_with toy_parse (fun p => p) $"f()" $"./stdlib"
                              cached_world))
       = stdout (snd (logger (WarningNotIndexing $"./stdlib") cached_world))
           ++ printed_lines (firstn 10 functions).
Proof.
  apply (@main_with_prints toy_parse (fun p => p) $"f()" $"f (  )" $"./stdlib"
           cached_world
           (snd (logger (WarningNotIndexing $"./stdlib") cached_world))
           [function_f]).
  - reflexivity.
  - reflexivity.
Defined.

Example main_on_one_function :
  let run := main_with toy_parse (fun p => p) $"f()" $"./stdlib" cached_world in
  fst run = Raise IndexError /\ stdout (snd run) = [$"a.py:1 f()"].
Proof. vm_compute. split; reflexivity. Qed.

(** ** Which paths are selected *)

(** X12. For a path made of segments joined by [/], the test of the
    loop holds exactly when the path ends in the two characters [py] and
    no segment is in the ignore list; the last segment, the file name
    itself, is compared like the directory names before it. *)
Theorem want_to_continue_segments (segments ignored : list str) :
  segments <> [] ->
  Forall (fun s => ~ In "/"%char s) segments ->
  (want_to_continue (join $"/" segments) ignored = true
   <-> endswith (join $"/" segments) $"py" = true
       /\ forall s, In s segments -> ~ In s ignored)
  /\ (forall s, In s segments -> In s ignored ->
                want_to_continue (join $"/" segments) ignored = false).
Proof.
  intros Hne Hall.
  assert (E : split "/"%char (join $"/" segments) = segments).
  { change $"/" with ["/"%char]. apply split_join; assumption. }
  assert (Hiff : want_to_continue (join $"/" segments) ignored = true
                 <-> endswith (join $"/" segments) $"py" = true
                     /\ forall s, In s segments -> ~ In s ignored).
  { rewrite want_to_continue_spec, E. reflexivity. }
  split; [exact Hiff|].
  intros s Hs Hi.
  destruct (want_to_continue (join $"/" segments) ignored) eqn:Ew;
    [|reflexivity].
  exfalso. apply (proj2 (proj1 Hiff eq_refl) s Hs Hi).
Qed.

Lemma want_to_continue_segments_witness :
  want_to_continue (join $"/" [$"stdlib"; $"test"; $"support.py"])
                   STDLIB_IGNORE = false.
Proof.
  refine (proj2 (@want_to_continue_segments
                   [$"stdlib"; $"test"; $"support.py"] STDLIB_IGNORE _ _)
                $"test" _ _).
  - discriminate.
  - repeat constructor; simpl; intuition discriminate.
  - simpl; tauto.
  - simpl; tauto.
Defined.

Lemma sets_intersect_ext (a b b' : list str) :
  (forall x, In x b <-> In x b') ->
  sets_intersect a b = sets_intersect a b'.
Proof.
  intros H.
  destruct (sets_intersect a b) eqn:E1; destruct (sets_intersect a b') eqn:E2;
    try reflexivity.
  - pose proof (proj1 (sets_intersect_false a b') E2) as F.
    assert (E : sets_intersect a b = false).
    { apply sets_intersect_false. intros x Ha Hb. apply (F x Ha), H, Hb. }
    congruence.
  - pose proof (proj1 (sets_intersect_false a b) E1) as F.
    assert (E : sets_intersect a b' = false).
    { apply sets_intersect_false. intros x Ha Hb. apply (F x Ha), H, Hb. }
    congruence.
Qed.

Lemma default_calls_lists ast_parse os_path_abspath (n : nat)
    (base_folder : str) (w : World) :
  lists (default_calls ast_parse os_path_abspath n base_folder w)
        ObjStdlibIgnore = w.(lists) ObjStdlibIgnore
  /\ lists (default_calls ast_parse os_path_abspath n base_folder w)
           ObjDefaultIgnore
     = w.(lists) ObjDefaultIgnore
         ++ concat (repeat (w.(lists) ObjStdlibIgnore) n).
Proof.
  induction n as [|n [IHs IHd]]; simpl default_calls.
  - split; [reflexivity|]. simpl; rewrite app_nil_r; reflexivity.
  - rewrite lists_after_fresh_run by reflexivity.
    rewrite !lists_scan_start. simpl list_obj_eqb. cbn iota.
    cbn [remove_json_output lists]. rewrite IHs, IHd. split; [reflexivity|].
    rewrite <- app_assoc. f_equal.
    simpl repeat. simpl concat. apply concat_repeat_comm.
Qed.

(** X13. The entries that pile up in the default ignore list do not
    change what is indexed: after any number of scanning calls without a
    second argument, the list the next such call tests the paths against
    selects the same paths as the list of the first call. *)
Theorem default_calls_same_selection ast_parse os_path_abspath (n : nat)
    (base_folder file : str) (w : World) :
  want_to_continue file
    (lists (scan_start base_folder ObjDefaultIgnore
              (remove_json_output
                 (default_calls ast_parse os_path_abspath n base_folder w)))
           ObjDefaultIgnore)
  = want_to_continue file
      (lists (scan_start base_folder ObjDefaultIgnore w) ObjDefaultIgnore).
Proof.
  rewrite !lists_scan_start. simpl list_obj_eqb. cbn iota.
  cbn [remove_json_output lists].
  destruct (default_calls_lists ast_parse os_path_abspath n base_folder w)
    as [Hs Hd].
  rewrite Hs, Hd. unfold want_to_continue. f_equal. f_equal.
  apply sets_intersect_ext. intros x. rewrite !in_app_iff. split.
  - intros [[H|H]|H]; auto.
    right. apply in_concat in H. destruct H as (l & Hl & Hx).
    apply repeat_spec in Hl. subst l. exact Hx.
  - intros [H|H]; auto.
Qed.

Example third_default_call_selection :
  want_to_continue $"pkg/test/a.py"
    (lists (scan_start $"pkg" ObjDefaultIgnore
              (remove_json_output
                 (default_calls toy_parse (fun p => p) 2 $"pkg" happy_world)))
           ObjDefaultIgnore)
  = false.
Proof. vm_compute. reflexivity. Qed.
